(** * gasfire: a shallow embedding of the fire renderer

    The TypeScript sources under [src/render/gasfire] are embedded module by
    module: [xorshift.ts], [tier.ts], [bezierfire.ts], [projection.ts],
    [generator.ts] and [render.ts].

    Numbers.  A JavaScript [number] that the code only ever uses as a 32-bit
    integer (the generator words) is a [Z] with the [ToInt32]/[ToUint32]
    wrap-around written out.  A [bigint] is a [Z].  Every other [number] is an
    exact rational [Q]: the geometry is read over exact arithmetic, without
    rounding, infinities or NaN ([x / 0] is [0] in [Q]); the statements
    about a quotient ask for a divisor that is not zero.  The one division
    whose divisor is zero on inputs of the renderer, the slope under
    [Math.atan], is modelled with its infinite values ([Generator.divide]).
    The functions of [Math] that are not rational ([atan], [cos], [sin],
    [PI]) are parameters of the sections that use them.

    Strings are strings of ASCII characters.  A function that can throw a
    [TypeError] returns an [option], [None] being the exception. *)

From Stdlib Require Import ZArith QArith Qround Qabs Lia Lqa Bool List Sorted.
From Stdlib Require Import Ascii String.
Import ListNotations.

Set Implicit Arguments.

Local Open Scope Z_scope.

(* ------------------------------------------------------------------ *)
(** ** Strings: [String.prototype.slice] and [parseInt(_, 16)] *)

Module JsString.

(** Index normalisation of [slice]: a negative index counts from the end,
    and the result is clamped to [0, len]. *)
Definition clampIndex (len i : Z) : Z :=
  if i <? 0 then Z.max (len + i) 0 else Z.min i len.

Fixpoint drop (n : nat) (s : string) : string :=
  match n, s with
  | O, _ => s
  | S n', String _ s' => drop n' s'
  | S _, EmptyString => EmptyString
  end.

Fixpoint take (n : nat) (s : string) : string :=
  match n, s with
  | O, _ => EmptyString
  | S n', String c s' => String c (take n' s')
  | S _, EmptyString => EmptyString
  end.

(** [s.slice(start, end)] *)
Definition slice (s : string) (start end_ : Z) : string :=
  let len := Z.of_nat (String.length s) in
  let from := clampIndex len start in
  let to := clampIndex len end_ in
  take (Z.to_nat (Z.max (to - from) 0)) (drop (Z.to_nat from) s).

(** Value of a hexadecimal digit, [None] for any other character. *)
Definition hexDigit (c : ascii) : option Z :=
  let n := Z.of_nat (nat_of_ascii c) in
  if (48 <=? n) && (n <=? 57) then Some (n - 48)
  else if (97 <=? n) && (n <=? 102) then Some (n - 87)
  else if (65 <=? n) && (n <=? 70) then Some (n - 55)
  else None.

(** The white space [parseInt] skips (the ASCII part of it). *)
Definition isWhiteSpace (c : ascii) : bool :=
  let n := nat_of_ascii c in
  (Nat.eqb n 9 || Nat.eqb n 10 || Nat.eqb n 11 || Nat.eqb n 12
   || Nat.eqb n 13 || Nat.eqb n 32)%bool.

Fixpoint trimStart (s : string) : string :=
  match s with
  | String c s' => if isWhiteSpace c then trimStart s' else s
  | EmptyString => s
  end.

(** Longest prefix of hexadecimal digits, read most significant first:
    the accumulated value and whether a digit was seen. *)
Fixpoint hexPrefix (s : string) (acc : Z) (seen : bool) : Z * bool :=
  match s with
  | String c s' =>
      match hexDigit c with
      | Some d => hexPrefix s' (16 * acc + d) true
      | None => (acc, seen)
      end
  | EmptyString => (acc, seen)
  end.

Definition stripSign (s : string) : Z * string :=
  match s with
  | String "-"%char s' => (-1, s')
  | String "+"%char s' => (1, s')
  | _ => (1, s)
  end.

Definition strip0x (s : string) : string :=
  match s with
  | String "0"%char (String "x"%char s') => s'
  | String "0"%char (String "X"%char s') => s'
  | _ => s
  end.

(** [parseInt(s, 16)]; [None] is [NaN]. *)
Definition parseInt16 (s : string) : option Z :=
  let (sign, s1) := stripSign (trimStart s) in
  let (v, seen) := hexPrefix (strip0x s1) 0 false in
  if seen then Some (sign * v) else None.

End JsString.

(* ------------------------------------------------------------------ *)
(** ** xorshift.ts *)

Module Xorshift.

(** A state word: what [parseInt] returned, or an [int32] once [nextInt]
    has written it. *)
Inductive word : Type :=
| NaN : word
| Int : Z -> word.

Definition ofParse (r : option Z) : word :=
  match r with Some n => Int n | None => NaN end.

Definition two32 : Z := 4294967296.
Definition two31 : Z := 2147483648.

(** [ToUint32] and [ToInt32] on an integer. *)
Definition wrapU32 (n : Z) : Z := n mod two32.
Definition wrapI32 (n : Z) : Z := (n + two31) mod two32 - two31.

(** [ToInt32] and [ToUint32] of a word; [NaN] converts to [0]. *)
Definition toInt32 (v : word) : Z :=
  match v with NaN => 0 | Int n => wrapI32 n end.
Definition toUint32 (v : word) : Z :=
  match v with NaN => 0 | Int n => wrapU32 n end.

(** The operators [^], [<<] and [>>>] on values already converted. *)
Definition xor32 (a b : Z) : Z := wrapI32 (Z.lxor (wrapI32 a) (wrapI32 b)).
Definition shl32 (a : Z) (n : Z) : Z := wrapI32 (Z.shiftl (wrapI32 a) n).
Definition ushr32 (a : Z) (n : Z) : Z := Z.shiftr (wrapU32 a) n.

Record XorShift : Type := mk { x : word; y : word; z : word; w : word }.

(** Code that draws from the generator: the object is mutated in place, so
    the state is threaded. *)
Definition Gen (A : Type) : Type := XorShift -> A * XorShift.

Definition ret {A} (a : A) : Gen A := fun g => (a, g).
Definition bind {A B} (m : Gen A) (k : A -> Gen B) : Gen B :=
  fun g => let (a, g') := m g in k a g'.

Definition nextInt : Gen Z := fun g =>
  let t := xor32 (toInt32 (x g)) (shl32 (toInt32 (x g)) 11) in
  let w' := xor32 (xor32 (toInt32 (w g)) (ushr32 (toUint32 (w g)) 19))
                  (xor32 t (ushr32 t 8)) in
  (w', mk (y g) (z g) (w g) (Int w')).

(** Truncation towards zero and the [%] operator on finite numbers. *)
Definition Qtrunc (q : Q) : Z :=
  if Qle_bool 0 q then Qfloor q else Qceiling q.
Definition jsrem (a b : Q) : Q := (a - b * inject_Z (Qtrunc (a / b)))%Q.

Definition nextIntBet (from to : Q) : Gen Q := fun g =>
  if Qle_bool (to - from) 0 then (0%Q, g)
  else
    let (n, g') := nextInt g in
    ((from + jsrem (inject_Z (Z.abs n)) (to - from))%Q, g').

(** The chunk of round [i]: [address.slice(start, end)]. *)
Definition chunk (address : string) (i : Z) : string :=
  let start := Z.of_nat (String.length address) - 8 * (i + 1) in
  let end_ := start + 8 in
  JsString.slice address start end_.

(** Each round puts its number at the front of [ints] ([unshift]), so after
    the four rounds [ints[0]] is the number of the round [i = 3]. *)
Definition getDeterministicRandomBy (address : string) : XorShift :=
  let ints :=
    fold_left
      (fun ints i => ofParse (JsString.parseInt16 (chunk address i)) :: ints)
      [0; 1; 2; 3] [] in
  mk (nth 0 ints NaN) (nth 1 ints NaN) (nth 2 ints NaN) (nth 3 ints NaN).

End Xorshift.

Notation "x <- m ;; k" := (Xorshift.bind m (fun x => k))
  (at level 61, m at next level, right associativity).
Notation "' pat <- m ;; k" :=
  (Xorshift.bind m (fun x => match x with pat => k end))
  (at level 61, pat pattern, m at next level, right associativity).

(* ------------------------------------------------------------------ *)
(** ** tier.ts *)

Module Tier.

Record TieredFireColor : Type :=
  mkColor { outer : string; middle : string; inner : string }.

Definition tierBoundaries : list Z :=
  [50000; 100000; 500000; 1000000; 5000000; 10000000; 50000000].

(** The [for] loop of [checkTierOf] from index [i] on, over the boundaries
    not yet visited: it stops at the first boundary above [gasUsed]. *)
Fixpoint tierLoop (gasUsed : Z) (rest : list Z) (i : Z) : Z :=
  match rest with
  | [] => i
  | b :: rest' => if gasUsed <? b then i else tierLoop gasUsed rest' (i + 1)
  end.

Definition checkTierOf (gasUsed : Z) : Z :=
  tierLoop gasUsed tierBoundaries 0 + 1.

Definition tierFireColor : list TieredFireColor :=
  [ mkColor "#414141" "#797979" "#ffffff";
    mkColor "#f86124" "#f6a223" "#f6e989";
    mkColor "#408600" "#46ff1d" "#afff9f";
    mkColor "#124d44" "#17a892" "#05ffda";
    mkColor "#004d8a" "#0c93ff" "#8ee1ff";
    mkColor "#3d00b0" "#6311ff" "#b28cff";
    mkColor "#ad0091" "#ff35db" "#ff99ec";
    mkColor "#8c0000" "#e80d0d" "#ff9898" ].

(** Array indexing by an integer: [None] is [undefined]. *)
Definition index {A} (l : list A) (i : Z) : option A :=
  if i <? 0 then None else nth_error l (Z.to_nat i).

Definition getTieredFireColor (tier : Z) : option TieredFireColor :=
  index tierFireColor (tier - 1).

End Tier.

(* ------------------------------------------------------------------ *)
(** ** bezierfire.ts *)

Local Open Scope Q_scope.

Module Bezier.

Record Point : Type := mkPoint { px : Q; py : Q }.

Record Rect : Type := mkRect { x1 : Q; y1 : Q; x2 : Q; y2 : Q }.

Record BezierLine : Type :=
  mkLine { cp1x : Q; cp1y : Q; cp2x : Q; cp2y : Q; lx : Q; ly : Q }.

Record BezierFire : Type :=
  mkFire { frame : Rect; start : Point; points : list BezierLine;
           fireBase : Point }.

Definition getBezierPoint (t : Q) (start cp1 cp2 end_ : Point) : Point :=
  let u := 1 - t in
  let tt := t * t in
  let uu := u * u in
  let uuu := uu * u in
  let ttt := tt * t in
  mkPoint
    (0 + px start * uuu + 3 * px cp1 * uu * t + 3 * px cp2 * u * tt
     + px end_ * ttt)
    (0 + py start * uuu + 3 * py cp1 * uu * t + 3 * py cp2 * u * tt
     + py end_ * ttt).

(** Inner loop of [calculateApproximateCentroid]: [j] runs over
    [0 .. samples - 1], here as the list [js]. *)
Definition sampleSegment (samples : Z) (p0 : Point) (p1 : BezierLine)
    (js : list Z) (sum : Q * Q) : Q * Q :=
  fold_left
    (fun (acc : Q * Q) (j : Z) =>
       let t := inject_Z j / inject_Z (samples - 1) in
       let pt := getBezierPoint t p0 (mkPoint (cp1x p1) (cp1y p1))
                   (mkPoint (cp2x p1) (cp2y p1)) (mkPoint (lx p1) (ly p1)) in
       (fst acc + px pt, snd acc + py pt))
    js sum.

(** Outer loop: [p0] is the start point for the first segment and the end
    point of the previous segment afterwards. *)
Fixpoint sampleSegments (samples : Z) (p0 : Point) (ps : list BezierLine)
    (js : list Z) (sum : Q * Q) : Q * Q :=
  match ps with
  | [] => sum
  | p1 :: ps' =>
      sampleSegments samples (mkPoint (lx p1) (ly p1)) ps' js
        (sampleSegment samples p0 p1 js sum)
  end.

Definition upto (n : Z) : list Z := map Z.of_nat (seq 0 (Z.to_nat n)).

(** With [samples < 2] or without a segment a divisor below is zero and the
    code returns [NaN] coordinates; the model is the code's for
    [2 <= samples] on a shape with a segment. *)
Definition calculateApproximateCentroid (f : BezierFire) (samples : Z)
    : Point :=
  let sum := sampleSegments samples (start f) (points f) (upto samples)
               (0, 0) in
  let n := inject_Z (Z.of_nat (List.length (points f)) * samples) in
  mkPoint (fst sum / n) (snd sum / n).

Definition defaultSamples : Z := 10%Z.

Definition scale (f : BezierFire) (centerX centerY scaleFactor : Q)
    : BezierFire :=
  let sx v := centerX + (v - centerX) * scaleFactor in
  let sy v := centerY + (v - centerY) * scaleFactor in
  let scaledPoints :=
    map (fun p => mkLine (sx (cp1x p)) (sy (cp1y p)) (sx (cp2x p))
                    (sy (cp2y p)) (sx (lx p)) (sy (ly p)))
        (points f) in
  mkFire
    (mkRect (sx (x1 (frame f))) (sy (y1 (frame f)))
            (sx (x2 (frame f))) (sy (y2 (frame f))))
    (mkPoint (sx (px (start f))) (sy (py (start f))))
    scaledPoints
    (mkPoint (sx (px (fireBase f))) (sy (py (fireBase f)))).

Definition move (f : BezierFire) (offsetX offsetY : Q) : BezierFire :=
  let scaledPoints :=
    map (fun p => mkLine (cp1x p + offsetX) (cp1y p + offsetY)
                    (cp2x p + offsetX) (cp2y p + offsetY)
                    (lx p + offsetX) (ly p + offsetY))
        (points f) in
  mkFire
    (mkRect (x1 (frame f) + offsetX) (y1 (frame f) + offsetY)
            (x2 (frame f) + offsetX) (y2 (frame f) + offsetY))
    (mkPoint (px (start f) + offsetX) (py (start f) + offsetY))
    scaledPoints
    (mkPoint (px (fireBase f) + offsetX) (py (fireBase f) + offsetY)).

End Bezier.

(* ------------------------------------------------------------------ *)
(** ** projection.ts *)

Module Projection.

Import Bezier.

(** The sixteen entries of a [mat4], in the order of its flat array. *)
Record mat4 : Type :=
  mkMat4 { m0 : Q; m1 : Q; m2 : Q; m3 : Q;
           m4 : Q; m5 : Q; m6 : Q; m7 : Q;
           m8 : Q; m9 : Q; m10 : Q; m11 : Q;
           m12 : Q; m13 : Q; m14 : Q; m15 : Q }.

Definition fromValues := mkMat4.

(** The determinant that [mat4.invert] tests, from the 2x2 minors of the two
    upper and the two lower rows. *)
Definition determinant (a : mat4) : Q :=
  let b00 := m0 a * m5 a - m1 a * m4 a in
  let b01 := m0 a * m6 a - m2 a * m4 a in
  let b02 := m0 a * m7 a - m3 a * m4 a in
  let b03 := m1 a * m6 a - m2 a * m5 a in
  let b04 := m1 a * m7 a - m3 a * m5 a in
  let b05 := m2 a * m7 a - m3 a * m6 a in
  let b06 := m8 a * m13 a - m9 a * m12 a in
  let b07 := m8 a * m14 a - m10 a * m12 a in
  let b08 := m8 a * m15 a - m11 a * m12 a in
  let b09 := m9 a * m14 a - m10 a * m13 a in
  let b10 := m9 a * m15 a - m11 a * m13 a in
  let b11 := m10 a * m15 a - m11 a * m14 a in
  b00 * b11 - b01 * b10 + b02 * b09 + b03 * b08 - b04 * b07 + b05 * b06.

(** Modelled from the spec: [mat4.invert(out, a)] of the gl-matrix package,
    which is imported but is not part of the sources; the spec calls it "a
    standard 4x4 matrix inverse".  It is the adjugate over the determinant,
    here in exact arithmetic; for a singular matrix gl-matrix returns [null]
    and leaves [out] as it is, and the caller passes the same matrix as
    [out] and [a]. *)
Definition invert (a : mat4) : mat4 :=
  let a00 := m0 a in let a01 := m1 a in let a02 := m2 a in let a03 := m3 a in
  let a10 := m4 a in let a11 := m5 a in let a12 := m6 a in let a13 := m7 a in
  let a20 := m8 a in let a21 := m9 a in let a22 := m10 a in
  let a23 := m11 a in
  let a30 := m12 a in let a31 := m13 a in let a32 := m14 a in
  let a33 := m15 a in
  let b00 := a00 * a11 - a01 * a10 in
  let b01 := a00 * a12 - a02 * a10 in
  let b02 := a00 * a13 - a03 * a10 in
  let b03 := a01 * a12 - a02 * a11 in
  let b04 := a01 * a13 - a03 * a11 in
  let b05 := a02 * a13 - a03 * a12 in
  let b06 := a20 * a31 - a21 * a30 in
  let b07 := a20 * a32 - a22 * a30 in
  let b08 := a20 * a33 - a23 * a30 in
  let b09 := a21 * a32 - a22 * a31 in
  let b10 := a21 * a33 - a23 * a31 in
  let b11 := a22 * a33 - a23 * a32 in
  let det :=
    b00 * b11 - b01 * b10 + b02 * b09 + b03 * b08 - b04 * b07 + b05 * b06 in
  if Qeq_bool det 0 then a
  else
    let det := 1 / det in
    mkMat4
      ((a11 * b11 - a12 * b10 + a13 * b09) * det)
      ((a02 * b10 - a01 * b11 - a03 * b09) * det)
      ((a31 * b05 - a32 * b04 + a33 * b03) * det)
      ((a22 * b04 - a21 * b05 - a23 * b03) * det)
      ((a12 * b08 - a10 * b11 - a13 * b07) * det)
      ((a00 * b11 - a02 * b08 + a03 * b07) * det)
      ((a32 * b02 - a30 * b05 - a33 * b01) * det)
      ((a20 * b05 - a22 * b02 + a23 * b01) * det)
      ((a10 * b10 - a11 * b08 + a13 * b06) * det)
      ((a01 * b08 - a00 * b10 - a03 * b06) * det)
      ((a30 * b04 - a31 * b02 + a33 * b00) * det)
      ((a21 * b02 - a20 * b04 - a23 * b00) * det)
      ((a11 * b07 - a10 * b09 - a12 * b06) * det)
      ((a00 * b09 - a01 * b07 + a02 * b06) * det)
      ((a31 * b01 - a30 * b03 - a32 * b00) * det)
      ((a20 * b03 - a21 * b01 + a22 * b00) * det).

(** The four corners of a template side; the code reads [pts[0..3][0..1]]. *)
Record Quad : Type := mkQuad { c0 : Point; c1 : Point; c2 : Point; c3 : Point }.

Record TransformTemplate : Type := mkTemplate { src : Quad; dest : Quad }.

(** The nine entries of [param]. *)
Record mat3 : Type :=
  mkMat3 { p0 : Q; p1 : Q; p2 : Q; p3 : Q; p4 : Q; p5 : Q; p6 : Q; p7 : Q;
           p8 : Q }.

Record ProjectiveTransform : Type :=
  mkTransform { template : TransformTemplate; mat : mat3 }.

(** The local function [Z] of [calcProjectionMatrix]. *)
Definition Zfix (val : Q) : Q := if Qeq_bool val 0 then 1 # 2 else val.

(** The determinant of the 2x2 system in the two translation terms, before
    the test against zero. *)
Definition det1 (kc3 kc4 kf3 kf4 : Q) : Q := kc3 * (- kf4) - (- kf3) * kc4.

Definition calcProjectionMatrix (src dest : Quad) : mat3 :=
  let X1 := Zfix (px (c0 src)) in
  let X2 := Zfix (px (c1 src)) in
  let X3 := Zfix (px (c2 src)) in
  let X4 := Zfix (px (c3 src)) in
  let Y1 := Zfix (py (c0 src)) in
  let Y2 := Zfix (py (c1 src)) in
  let Y3 := Zfix (py (c2 src)) in
  let Y4 := Zfix (py (c3 src)) in
  let x1 := Zfix (px (c0 dest)) in
  let x2 := Zfix (px (c1 dest)) in
  let x3 := Zfix (px (c2 dest)) in
  let x4 := Zfix (px (c3 dest)) in
  let y1 := Zfix (py (c0 dest)) in
  let y2 := Zfix (py (c1 dest)) in
  let y3 := Zfix (py (c2 dest)) in
  let y4 := Zfix (py (c3 dest)) in
  let tx := fromValues
      X1 Y1 (- X1 * x1) (- Y1 * x1)
      X2 Y2 (- X2 * x2) (- Y2 * x2)
      X3 Y3 (- X3 * x3) (- Y3 * x3)
      X4 Y4 (- X4 * x4) (- Y4 * x4) in
  let tx := invert tx in
  let kx1 := m0 tx * x1 + m1 tx * x2 + m2 tx * x3 + m3 tx * x4 in
  let kc1 := m0 tx + m1 tx + m2 tx + m3 tx in
  let kx2 := m4 tx * x1 + m5 tx * x2 + m6 tx * x3 + m7 tx * x4 in
  let kc2 := m4 tx + m5 tx + m6 tx + m7 tx in
  let kx3 := m8 tx * x1 + m9 tx * x2 + m10 tx * x3 + m11 tx * x4 in
  let kc3 := m8 tx + m9 tx + m10 tx + m11 tx in
  let kx4 := m12 tx * x1 + m13 tx * x2 + m14 tx * x3 + m15 tx * x4 in
  let kc4 := m12 tx + m13 tx + m14 tx + m15 tx in
  let ty := fromValues
      X1 Y1 (- X1 * y1) (- Y1 * y1)
      X2 Y2 (- X2 * y2) (- Y2 * y2)
      X3 Y3 (- X3 * y3) (- Y3 * y3)
      X4 Y4 (- X4 * y4) (- Y4 * y4) in
  let ty := invert ty in
  let ky1 := m0 ty * y1 + m1 ty * y2 + m2 ty * y3 + m3 ty * y4 in
  let kf1 := m0 ty + m1 ty + m2 ty + m3 ty in
  let ky2 := m4 ty * y1 + m5 ty * y2 + m6 ty * y3 + m7 ty * y4 in
  let kf2 := m4 ty + m5 ty + m6 ty + m7 ty in
  let ky3 := m8 ty * y1 + m9 ty * y2 + m10 ty * y3 + m11 ty * y4 in
  let kf3 := m8 ty + m9 ty + m10 ty + m11 ty in
  let ky4 := m12 ty * y1 + m13 ty * y2 + m14 ty * y3 + m15 ty * y4 in
  let kf4 := m12 ty + m13 ty + m14 ty + m15 ty in
  let det_1 := det1 kc3 kc4 kf3 kf4 in
  let det_1 := if Qeq_bool det_1 0 then 1 # 10000 else det_1 in
  let det_1 := 1 / det_1 in
  let C := (- kf4 * det_1) * (kx3 - ky3) + (kf3 * det_1) * (kx4 - ky4) in
  let F := (- kc4 * det_1) * (kx3 - ky3) + (kc3 * det_1) * (kx4 - ky4) in
  mkMat3 (kx1 - C * kc1) (kx2 - C * kc2) C
         (ky1 - F * kf1) (ky2 - F * kf2) F
         (kx3 - C * kc3) (kx4 - C * kc4) 1.

(** The divisor of [transform]. *)
Definition divisor (t : ProjectiveTransform) (_x _y : Q) : Q :=
  _x * p6 (mat t) + _y * p7 (mat t) + p8 (mat t).

(** With a divisor [z] that is zero the code returns infinities or [NaN];
    the model is the code's where [z] is not zero. *)
Definition transform (t : ProjectiveTransform) (_x _y : Q) : Q * Q :=
  let z := divisor t _x _y in
  let x := (_x * p0 (mat t) + _y * p1 (mat t) + p2 (mat t)) / z in
  let y := (_x * p3 (mat t) + _y * p4 (mat t) + p5 (mat t)) / z in
  (x, y).

Definition transformBezier (t : ProjectiveTransform) (bezierLine : BezierFire)
    : BezierFire :=
  let '(sx, sy) := transform t (px (start bezierLine)) (py (start bezierLine)) in
  let '(fbx, fby) :=
    transform t (px (fireBase bezierLine)) (py (fireBase bezierLine)) in
  let points :=
    map (fun point =>
           let '(cp1x, cp1y) := transform t (cp1x point) (cp1y point) in
           let '(cp2x, cp2y) := transform t (cp2x point) (cp2y point) in
           let '(x, y) := transform t (lx point) (ly point) in
           mkLine cp1x cp1y cp2x cp2y x y)
        (points bezierLine) in
  mkFire (frame bezierLine) (mkPoint sx sy) points (mkPoint fbx fby).

Definition createTransformBy (template : TransformTemplate)
    : ProjectiveTransform :=
  let projectionMatrix := calcProjectionMatrix (src template) (dest template) in
  mkTransform template projectionMatrix.

End Projection.

(* ------------------------------------------------------------------ *)
(** ** generator.ts *)

Module Generator.

Import Xorshift Bezier Projection.

(** The generator object is shared with the caller and threaded through
    [Gen]; the other two fields are read only. *)
Record ProjectionGenerator : Type :=
  createBy { seed : BezierFire; canvasWidth : Q }.

(** The value of a division [a / b] of two finite numbers, which does not
    fail on a zero divisor.  The divisors it is used for are differences of
    two numbers, and a difference that is zero is [+0]: the sign of an
    infinite quotient is the sign of the dividend, and [0 / 0] is [NaN]. *)
Inductive Quotient : Type :=
| Finite (q : Q)
| PosInfinity
| NegInfinity
| NotANumber.

Definition divide (a b : Q) : Quotient :=
  if Qeq_bool b 0 then
    if Qeq_bool a 0 then NotANumber
    else if Qle_bool a 0 then NegInfinity
    else PosInfinity
  else Finite (a / b).

Section Trig.

(** [Math.atan], [Math.cos], [Math.sin] and [Math.PI].  [Math.atan] is
    applied to a quotient and so has the infinities in its domain; its value
    at [NaN] is [NaN] in the code, which a result in [Q] does not show. *)
Variable atan : Quotient -> Q.
Variables cos sin : Q -> Q.
Variable PI : Q.

Definition degreeToRad (degree : Q) : Q := degree * PI / 180.

Definition determineCenterPoint (barRangeOfMotion : Rect) : Gen Point :=
  midpointX <- nextIntBet (x1 barRangeOfMotion) (x2 barRangeOfMotion) ;;
  midpointY <- nextIntBet (y1 barRangeOfMotion) (y2 barRangeOfMotion) ;;
  ret (mkPoint midpointX midpointY).

(** The two divisors under [Math.atan] in [calcBarAngleRange]; all three
    branches divide by the same pair. *)
Definition slopeDivisors (this : ProjectionGenerator) (midpointX : Q)
    : Q * Q :=
  (midpointX - x1 (frame (seed this)), midpointX - x2 (frame (seed this))).

(** The two arguments of [Math.atan] in [calcBarAngleRange]; all three
    branches form the same pair of quotients. *)
Definition slopes (this : ProjectionGenerator) (midpointX midpointY : Q)
    : Quotient * Quotient :=
  let f := frame (seed this) in
  let '(d1, d2) := slopeDivisors this midpointX in
  (divide (midpointY - y2 f) d1, divide (midpointY - y2 f) d2).

Definition calcBarAngleRange (this : ProjectionGenerator)
    (midpointX midpointY : Q) : Q * Q :=
  let f := frame (seed this) in
  let '(s1, s2) := slopes this midpointX midpointY in
  let '(startAngle, endAngle) :=
    if negb (Qle_bool (x1 f) midpointX) then (- (PI - atan s1), atan s2)
    else if Qle_bool (x1 f) midpointX && Qle_bool midpointX (x2 f) then
      (atan s1, atan s2)
    else (atan s1, PI + atan s2) in
  let angleThreshold := 30 in
  (startAngle + degreeToRad angleThreshold,
   endAngle - degreeToRad angleThreshold).

(** The angle before the left/right decision: [startAngle + angleMove]. *)
Definition pickAngle (startAngle endAngle : Q) : Gen Q :=
  let angleWidth := (endAngle - startAngle) * 180 / PI in
  n <- nextIntBet 0 angleWidth ;;
  let angleMove := n * PI / 180 in
  ret (startAngle + angleMove).

Definition determineBarAngleRad (startAngle endAngle : Q) : Gen Q :=
  lr <- nextIntBet 0 1 ;;
  angleRad <- pickAngle startAngle endAngle ;;
  if Qeq_bool lr 1 then ret (angleRad + PI) else ret angleRad.

Definition rotate (centerX centerY : Q) (point : Point) (radian : Q) : Point :=
  let cosTheta := cos radian in
  let sinTheta := sin radian in
  mkPoint
    (centerX + (px point - centerX) * cosTheta
     - (py point - centerY) * sinTheta)
    (centerY + (px point - centerX) * sinTheta
     + (py point - centerY) * cosTheta).

Definition minWidth : Q := 51.

Definition barRangeOfMotion (this : ProjectionGenerator) (radius : Q) : Rect :=
  let f := frame (seed this) in
  let frameHeight := y2 f - y1 f in
  mkRect radius radius (canvasWidth this - radius) (y1 f + frameHeight / 2).

(** First part of [nextTransform]: the bar radius and the centre point. *)
Definition chooseBar (this : ProjectionGenerator) : Gen (Q * Point) :=
  let f := frame (seed this) in
  let frameWidth := x2 f - x1 f in
  n <- nextIntBet minWidth frameWidth ;;
  let barLength := inject_Z (Qfloor (n / 2)) * 2 in
  let radius := barLength / 2 in
  mid <- determineCenterPoint (barRangeOfMotion this radius) ;;
  ret (radius, mid).

(** [nextTransform()], called without the debugging context. *)
Definition nextTransform (this : ProjectionGenerator)
    : Gen ProjectiveTransform :=
  let f := frame (seed this) in
  '(radius, mid) <- chooseBar this ;;
  let midpointX := px mid in
  let midpointY := py mid in
  let '(startAngle, endAngle) := calcBarAngleRange this midpointX midpointY in
  barAngleRad <- determineBarAngleRad startAngle endAngle ;;
  let baseLeftTopPoint := mkPoint (midpointX - radius) midpointY in
  let baseRightTopPoint := mkPoint (midpointX + radius) midpointY in
  let p1 := rotate midpointX midpointY baseLeftTopPoint barAngleRad in
  let p2 := rotate midpointX midpointY baseRightTopPoint barAngleRad in
  ret (createTransformBy
         (mkTemplate
            (mkQuad (mkPoint (x1 f) (y1 f)) (mkPoint (x2 f) (y1 f))
                    (mkPoint (x2 f) (y2 f)) (mkPoint (x1 f) (y2 f)))
            (mkQuad p1 p2
                    (mkPoint (x2 f) (y2 f)) (mkPoint (x1 f) (y2 f))))).

End Trig.

End Generator.

(* ------------------------------------------------------------------ *)
(** ** render.ts *)

Module Render.

Import Xorshift Tier Bezier Projection Generator.

(** What the code does to the 2D context, in order. *)
Inductive DrawCall : Type :=
| BeginPath
| MoveTo (x y : Q)
| BezierCurveTo (cp1x cp1y cp2x cp2y x y : Q)
| ClosePath
| FillStyle (color : string)
| Fill.

(** The context is the log of the calls made on it, oldest first. *)
Definition Context : Type := list DrawCall.

(** The one entry of [bezierFireSeeds]. *)
Definition seedFire : BezierFire :=
  mkFire
    (mkRect 120 70 392 512)
    (mkPoint 134 391)
    [ mkLine 173 530 344 530 383 391;
      mkLine 406 260 282 221 258 70;
      mkLine 234 221 110 260 134 391 ]
    (mkPoint 258 406).

Definition bezierFireSeeds : list BezierFire := [seedFire].

Definition drawBezierFire (ctx : Context) (bezierFire : BezierFire)
    (fillColor : string) : Context :=
  ctx ++ BeginPath
      :: MoveTo (px (start bezierFire)) (py (start bezierFire))
      :: map (fun point =>
                BezierCurveTo (cp1x point) (cp1y point) (cp2x point)
                  (cp2y point) (lx point) (ly point))
             (points bezierFire)
      ++ [ClosePath; FillStyle fillColor; Fill].

(** [fire.move(baseFire.fireBase.x - fire.fireBase.x, 0)] *)
Definition align (baseFire fire : BezierFire) : BezierFire :=
  move fire (px (fireBase baseFire) - px (fireBase fire)) 0.

(** Body of the first three loops of [drawBezierFrame]. *)
Definition centroidLayer (baseFire : BezierFire) (factor : Q) (color : string)
    (ctx : Context) (fire : BezierFire) : Context :=
  let fire := align baseFire fire in
  let c := calculateApproximateCentroid fire defaultSamples in
  drawBezierFire ctx (scale fire (px c) (py c) factor) color.

(** Body of the fourth loop. *)
Definition baseLayer (baseFire : BezierFire) (factor : Q) (color : string)
    (ctx : Context) (fire : BezierFire) : Context :=
  let fire := align baseFire fire in
  drawBezierFire ctx
    (scale fire (px (fireBase fire)) (py (fireBase fire)) factor) color.

(** [None]: the [TypeError] of [baseFire.scale] on an empty array. *)
Definition drawBezierFrame (ctx : Context) (fireColor : TieredFireColor)
    (bezierFires : list BezierFire) : option Context :=
  match bezierFires with
  | [] => None
  | baseFire :: _ =>
      let ctx := fold_left (centroidLayer baseFire 1 "#ffffff") bezierFires
                   ctx in
      let ctx := fold_left (centroidLayer baseFire (93 # 100) "#000000")
                   bezierFires ctx in
      let ctx := fold_left (centroidLayer baseFire (84 # 100) (outer fireColor))
                   bezierFires ctx in
      let ctx := fold_left (baseLayer baseFire (55 # 100) (middle fireColor))
                   bezierFires ctx in
      Some (drawBezierFire ctx
              (scale baseFire (px (fireBase baseFire))
                 (py (fireBase baseFire)) (3 # 10))
              (inner fireColor))
  end.

(** Array indexing by a number: [undefined] unless it is an integer in
    range. *)
Definition indexQ {A} (l : list A) (i : Q) : option A :=
  if Qeq_bool (inject_Z (Qfloor i)) i then index l (Qfloor i) else None.

Section Trig.

Variable atan : Quotient -> Q.
Variables cos sin : Q -> Q.
Variable PI : Q.

(** One round of the loop of [renderImage]; [None] is the [TypeError] that
    follows from an [undefined] seed. *)
Definition placeFire (width : Q) (i : Z) : Gen (option BezierFire) :=
  seedIdx <-
    nextIntBet 0 (inject_Z (Z.of_nat (List.length bezierFireSeeds)) - 1) ;;
  match indexQ bezierFireSeeds seedIdx with
  | None => ret None
  | Some fire =>
      let generator := createBy fire width in
      if (0 <? i)%Z then
        projection <- nextTransform atan cos sin PI generator ;;
        ret (Some (transformBezier projection fire))
      else ret (Some fire)
  end.

(** The loop [for (let i = 0; i < fireNum; i++)] with [rounds] rounds left;
    [bezierFires] is kept in the order of the pushes. *)
Fixpoint placeFires (width : Q) (rounds : nat) (i : Z)
    (bezierFires : list BezierFire) : Gen (option (list BezierFire)) :=
  match rounds with
  | O => ret (Some bezierFires)
  | S rounds' =>
      r <- placeFire width i ;;
      match r with
      | None => ret None
      | Some fire => placeFires width rounds' (i + 1) (bezierFires ++ [fire])
      end
  end.

(** Lines 74 to 87 of [renderImage]: the instances that are drawn.  The
    test [i < fireNum] holds for the integers [i] below the ceiling of
    [fireNum]. *)
Definition chooseFires (width : Q) (address : string)
    : option (list BezierFire) :=
  let xorShift := getDeterministicRandomBy address in
  fst ((fireNum <- nextIntBet 2 4 ;;
        placeFires width (Z.to_nat (Qceiling fireNum)) 0 []) xorShift).

Definition renderImage (ctx : Context) (width height : Q) (address : string)
    (gasUsed : Z) : option Context :=
  match chooseFires width address with
  | None => None
  | Some bezierFires =>
      let tier := checkTierOf gasUsed in
      match getTieredFireColor tier with
      | None => None
      | Some tieredFireColor => drawBezierFrame ctx tieredFireColor bezierFires
      end
  end.

End Trig.

End Render.

(* ================================================================== *)
(** * Properties *)

(** ** The generator *)

Module XorshiftFacts.

Import Xorshift.

Lemma wrapI32_range (n : Z) : (- two31 <= wrapI32 n < two31)%Z.
Proof.
  unfold wrapI32, two31, two32.
  pose proof (Z.mod_pos_bound (n + 2147483648) 4294967296 eq_refl). lia.
Qed.

Lemma nextInt_range (g : XorShift) :
  (- two31 <= fst (nextInt g) < two31)%Z.
Proof. unfold nextInt, xor32; simpl. apply wrapI32_range. Qed.

Lemma Qtrunc_nonneg (q : Q) : 0 <= q -> Qtrunc q = Qfloor q.
Proof.
  intros H. unfold Qtrunc.
  destruct (Qle_bool 0 q) eqn:E; [reflexivity|].
  apply Qle_bool_iff in H. congruence.
Qed.

(** [%] with a non-negative dividend and a positive divisor. *)
Lemma jsrem_bounds (a b : Q) :
  0 <= a -> 0 < b -> 0 <= jsrem a b /\ jsrem a b < b.
Proof.
  intros Ha Hb. unfold jsrem.
  assert (Hq : 0 <= a / b).
  { apply Qle_shift_div_l; [assumption|]. rewrite Qmult_0_l. assumption. }
  rewrite (Qtrunc_nonneg Hq).
  pose proof (Qfloor_le (a / b)) as Hlo.
  pose proof (Qlt_floor (a / b)) as Hhi.
  set (k := Qfloor (a / b)) in *.
  rewrite inject_Z_plus in Hhi.
  change (inject_Z 1) with 1 in Hhi.
  assert (Ea : a == b * (a / b)).
  { symmetry. apply Qmult_div_r. intros E. rewrite E in Hb. lra. }
  set (q := a / b) in *.
  assert (Hlo' : b * inject_Z k <= b * q).
  { apply Qmult_le_l; assumption. }
  assert (Hhi' : b * q < b * (inject_Z k + 1)).
  { apply Qmult_lt_l; assumption. }
  split; lra.
Qed.

Lemma Qfloor_div_Z (a b : Z) :
  (0 < b)%Z -> Qfloor (inject_Z a / inject_Z b) = (a / b)%Z.
Proof.
  intros Hb. destruct b as [|p|p]; try lia.
  unfold Qdiv, Qinv, inject_Z, Qmult, Qfloor; simpl.
  rewrite Z.mul_1_r. reflexivity.
Qed.

Lemma jsrem_Z (a b : Z) :
  (0 <= a)%Z -> (0 < b)%Z ->
  jsrem (inject_Z a) (inject_Z b) == inject_Z (a mod b).
Proof.
  intros Ha Hb. unfold jsrem.
  assert (Hq : 0 <= inject_Z a / inject_Z b).
  { apply Qle_shift_div_l.
    - change 0 with (inject_Z 0). rewrite <- Zlt_Qlt. assumption.
    - rewrite Qmult_0_l. change 0 with (inject_Z 0).
      rewrite <- Zle_Qle. assumption. }
  rewrite (Qtrunc_nonneg Hq), (Qfloor_div_Z a Hb).
  rewrite <- inject_Z_mult. unfold Qminus.
  rewrite <- inject_Z_opp, <- inject_Z_plus.
  rewrite Z.mod_eq by lia. reflexivity.
Qed.

(** The empty range: no draw is made and the generator is left as it is. *)
Lemma nextIntBet_empty (from to : Q) (g : XorShift) :
  to - from <= 0 -> nextIntBet from to g = (0, g).
Proof.
  intros H. unfold nextIntBet.
  apply Qle_bool_iff in H. rewrite H. reflexivity.
Qed.

Lemma nextIntBet_draw (from to : Q) (g : XorShift) :
  0 < to - from ->
  nextIntBet from to g =
    (from + jsrem (inject_Z (Z.abs (fst (nextInt g)))) (to - from),
     snd (nextInt g)).
Proof.
  intros H. unfold nextIntBet.
  destruct (Qle_bool (to - from) 0) eqn:E.
  - apply Qle_bool_iff in E. lra.
  - destruct (nextInt g); reflexivity.
Qed.

(** The half-open range on arbitrary numbers. *)
Lemma nextIntBet_bounds (from to : Q) (g : XorShift) :
  from < to ->
  from <= fst (nextIntBet from to g) /\ fst (nextIntBet from to g) < to.
Proof.
  intros H. rewrite nextIntBet_draw by lra. cbn [fst].
  assert (Ha : 0 <= inject_Z (Z.abs (fst (nextInt g)))).
  { change 0 with (inject_Z 0). rewrite <- Zle_Qle. apply Z.abs_nonneg. }
  assert (Hb : 0 < to - from) by lra.
  destruct (jsrem_bounds Ha Hb). split; lra.
Qed.

(** A state from which [nextInt] returns the most negative [int32]. *)
Definition minState : XorShift := mk (Int 0) NaN NaN (Int 2147487744).

Lemma nextInt_minState : fst (nextInt minState) = (- two31)%Z.
Proof. reflexivity. Qed.

(** The width of a range of integer bounds is the integer width. *)
Lemma jsrem_width (a lo hi : Z) :
  (0 <= a)%Z -> (lo < hi)%Z ->
  jsrem (inject_Z a) (inject_Z hi - inject_Z lo) == inject_Z (a mod (hi - lo)).
Proof.
  intros Ha H.
  assert (E : inject_Z hi - inject_Z lo = inject_Z (hi - lo)).
  { unfold inject_Z, Qminus, Qplus, Qopp. simpl.
    rewrite !Z.mul_1_r. reflexivity. }
  rewrite E. apply jsrem_Z; lia.
Qed.

Lemma nextIntBet_Z (g : XorShift) (lo hi : Z) :
  (lo < hi)%Z ->
  fst (nextIntBet (inject_Z lo) (inject_Z hi) g)
    == inject_Z (lo + Z.abs (fst (nextInt g)) mod (hi - lo))
  /\ snd (nextIntBet (inject_Z lo) (inject_Z hi) g) = snd (nextInt g).
Proof.
  intros H.
  assert (Hq : inject_Z lo < inject_Z hi) by (rewrite <- Zlt_Qlt; lia).
  assert (Hd : 0 < inject_Z hi - inject_Z lo) by lra.
  pose proof (nextIntBet_draw g Hd) as D.
  generalize dependent (nextInt g). intros n D.
  rewrite D. cbn [fst snd]. split; [|reflexivity].
  rewrite (jsrem_width (Z.abs_nonneg (fst n)) H).
  rewrite <- inject_Z_plus. reflexivity.
Qed.

(** C6: on integer bounds, [nextIntBet(lo, hi)] is
    [lo + (|nextInt()| mod (hi - lo))] and lies in [lo, hi) when [hi > lo],
    and is exactly [0], without a draw, when [hi <= lo]; some state makes
    [nextInt()] the most negative 32-bit value, and the bounds hold there as
    everywhere. *)
Theorem nextIntBet_range (g : XorShift) (lo hi : Z) :
  ((lo < hi)%Z ->
   let r := fst (nextIntBet (inject_Z lo) (inject_Z hi) g) in
   r == inject_Z (lo + Z.abs (fst (nextInt g)) mod (hi - lo))
   /\ inject_Z lo <= r /\ r < inject_Z hi
   /\ snd (nextIntBet (inject_Z lo) (inject_Z hi) g) = snd (nextInt g))
  /\ ((hi <= lo)%Z ->
      nextIntBet (inject_Z lo) (inject_Z hi) g = (0, g))
  /\ (exists g0, fst (nextInt g0) = (- two31)%Z).
Proof.
  split; [|split].
  - intros H r.
    assert (Hq : inject_Z lo < inject_Z hi) by (rewrite <- Zlt_Qlt; lia).
    destruct (nextIntBet_bounds g Hq) as [B1 B2].
    destruct (nextIntBet_Z g H) as [E S].
    subst r. repeat split; assumption.
  - intros H. apply nextIntBet_empty.
    assert (Hq : inject_Z hi <= inject_Z lo) by (rewrite <- Zle_Qle; lia).
    lra.
  - exists minState. exact nextInt_minState.
Qed.

Definition sampleState : XorShift := mk (Int 1) (Int 2) (Int 3) (Int 4).

Lemma nextIntBet_range_witness :
  (2 < 4)%Z /\ (7 <= 7)%Z
  /\ fst (nextIntBet (inject_Z 2) (inject_Z 4) sampleState) == inject_Z 3
  /\ nextIntBet (inject_Z 7) (inject_Z 7) sampleState = (0, sampleState).
Proof.
  destruct (nextIntBet_range sampleState 2 4) as [H1 _].
  destruct (nextIntBet_range sampleState 7 7) as [_ [H2 _]].
  assert (L1 : (2 < 4)%Z) by lia.
  assert (L2 : (7 <= 7)%Z) by lia.
  split; [exact L1|]. split; [exact L2|].
  split; [exact (proj1 (H1 L1)) | exact (H2 L2)].
Defined.

(** A range of width one has a single value: [nextIntBet(0, 1)] is [0]. *)
Lemma nextIntBet_0_1 (g : XorShift) :
  fst (nextIntBet 0 1 g) == 0 /\ snd (nextIntBet 0 1 g) = snd (nextInt g).
Proof.
  destruct (@nextIntBet_Z g 0 1) as [E S]; [lia|].
  split; [|exact S].
  change (nextIntBet 0 1 g) with (nextIntBet (inject_Z 0) (inject_Z 1) g).
  rewrite E. rewrite Z.sub_0_r, Z.mod_1_r. reflexivity.
Qed.

(** [nextIntBet(2, 4)] is [2] or [3]. *)
Lemma nextIntBet_2_4 (g : XorShift) :
  fst (nextIntBet 2 4 g) == 2 \/ fst (nextIntBet 2 4 g) == 3.
Proof.
  destruct (@nextIntBet_Z g 2 4) as [E _]; [lia|].
  change (nextIntBet 2 4 g) with (nextIntBet (inject_Z 2) (inject_Z 4) g).
  rewrite E. change (4 - 2)%Z with 2%Z.
  pose proof (Z.mod_pos_bound (Z.abs (fst (nextInt g))) 2 eq_refl) as B.
  assert (C : (Z.abs (fst (nextInt g)) mod 2 = 0
               \/ Z.abs (fst (nextInt g)) mod 2 = 1)%Z) by lia.
  destruct C as [C | C]; rewrite C; [left | right]; reflexivity.
Qed.

End XorshiftFacts.

(** ** The placement generator *)

Module GeneratorFacts.

Import Xorshift XorshiftFacts Bezier Projection Generator.
Import Render (seedFire).

(** C4: the left/right draw [nextIntBet(0, 1)] is [0] for every generator
    state, so [determineBarAngleRad] always returns the picked angle
    [startAngle + angleMove] itself; with [PI] not zero it never returns
    that angle plus [PI]. *)
Theorem determineBarAngleRad_never_flips (PI startAngle endAngle : Q)
    (g : XorShift) :
  fst (nextIntBet 0 1 g) == 0
  /\ determineBarAngleRad PI startAngle endAngle g
     = pickAngle PI startAngle endAngle (snd (nextInt g))
  /\ (~ PI == 0 ->
      ~ fst (determineBarAngleRad PI startAngle endAngle g)
        == fst (pickAngle PI startAngle endAngle (snd (nextInt g))) + PI).
Proof.
  destruct (nextIntBet_0_1 g) as [E S].
  assert (R : determineBarAngleRad PI startAngle endAngle g
              = pickAngle PI startAngle endAngle (snd (nextInt g))).
  { unfold determineBarAngleRad, bind.
    destruct (nextIntBet 0 1 g) as [lr g1] eqn:D. cbn [fst snd] in E, S.
    subst g1.
    destruct (pickAngle PI startAngle endAngle (snd (nextInt g))) as [a g2].
    assert (N : Qeq_bool lr 1 = false).
    { destruct (Qeq_bool lr 1) eqn:B; [|reflexivity].
      apply Qeq_bool_eq in B. rewrite E in B. discriminate B. }
    rewrite N. reflexivity. }
  split; [exact E|]. split; [exact R|].
  intros HPI H. rewrite R in H. apply HPI. lra.
Qed.

Lemma determineBarAngleRad_never_flips_witness :
  ~ (22 # 7) == 0
  /\ ~ fst (determineBarAngleRad (22 # 7) 0 1 sampleState)
        == fst (pickAngle (22 # 7) 0 1 (snd (nextInt sampleState)))
           + (22 # 7).
Proof.
  assert (N : ~ (22 # 7) == 0) by (intros H; discriminate H).
  split; [exact N|].
  exact (proj2 (proj2
           (determineBarAngleRad_never_flips (22 # 7) 0 1 sampleState)) N).
Defined.

(** The generator of the shipped canvas, 512 pixels wide. *)
Definition shipped : ProjectionGenerator := createBy seedFire 512.

(** The upper end of the centre's vertical range:
    [frame.y1 + frameHeight / 2]. *)
Definition midHeight (this : ProjectionGenerator) : Q :=
  y1 (frame (seed this))
  + (y2 (frame (seed this)) - y1 (frame (seed this))) / 2.

Lemma chooseBar_unfold (this : ProjectionGenerator) (g : XorShift) :
  let n := nextIntBet minWidth
             (x2 (frame (seed this)) - x1 (frame (seed this))) g in
  let radius := inject_Z (Qfloor (fst n / 2)) * 2 / 2 in
  let mx := nextIntBet radius (canvasWidth this - radius) (snd n) in
  let my := nextIntBet radius (midHeight this) (snd mx) in
  chooseBar this g = ((radius, mkPoint (fst mx) (fst my)), snd my).
Proof.
  intros n radius mx my.
  unfold chooseBar, determineCenterPoint, barRangeOfMotion, bind, ret.
  cbn [x1 x2 y1 y2].
  fold (midHeight this).
  subst my mx radius n.
  destruct (nextIntBet minWidth _ g) as [n g1]. cbn [fst snd].
  destruct (nextIntBet _ (canvasWidth this - _) g1) as [mx g2]. cbn [fst snd].
  destruct (nextIntBet _ (midHeight this) g2) as [my g3]. reflexivity.
Qed.

(** C5 as the code has it: the centre's [x] is drawn from
    [radius, canvasWidth - radius) and its [y] from
    [radius, frame.y1 + frameHeight / 2), the lower end of both ranges being
    the radius; a coordinate whose range is empty is [0].  The radius is half
    the bar length, [floor(n / 2)] for the draw [n] from [51, frameWidth). *)
Theorem chooseBar_center (this : ProjectionGenerator) (g : XorShift) :
  let radius := fst (fst (chooseBar this g)) in
  let mid := snd (fst (chooseBar this g)) in
  let f := frame (seed this) in
  radius == inject_Z (Qfloor (fst (nextIntBet 51 (x2 f - x1 f) g) / 2))
  /\ (radius < canvasWidth this - radius ->
      radius <= px mid /\ px mid < canvasWidth this - radius)
  /\ (canvasWidth this - radius <= radius -> px mid = 0)
  /\ (radius < y1 f + (y2 f - y1 f) / 2 ->
      radius <= py mid /\ py mid < y1 f + (y2 f - y1 f) / 2)
  /\ (y1 f + (y2 f - y1 f) / 2 <= radius -> py mid = 0).
Proof.
  pose proof (chooseBar_unfold this g) as E. cbv zeta in E.
  intros radius mid f. subst radius mid. rewrite E. clear E.
  cbn [fst snd px py].
  subst f. fold (midHeight this).
  set (radius := inject_Z (Qfloor _) * 2 / 2).
  split; [subst radius; unfold minWidth; field|].
  clearbody radius.
  split; [|split; [|split]].
  - intros H. apply nextIntBet_bounds. exact H.
  - intros H.
    rewrite (@nextIntBet_empty radius (canvasWidth this - radius)) by lra.
    reflexivity.
  - intros H. apply nextIntBet_bounds. exact H.
  - intros H. rewrite (@nextIntBet_empty radius (midHeight this)) by lra.
    reflexivity.
Qed.

Lemma chooseBar_center_witness :
  fst (fst (chooseBar shipped sampleState))
    < canvasWidth shipped - fst (fst (chooseBar shipped sampleState))
  /\ fst (fst (chooseBar shipped sampleState))
     < y1 (frame (seed shipped))
       + (y2 (frame (seed shipped)) - y1 (frame (seed shipped))) / 2
  /\ fst (fst (chooseBar shipped sampleState))
     <= px (snd (fst (chooseBar shipped sampleState)))
  /\ fst (fst (chooseBar shipped sampleState))
     <= py (snd (fst (chooseBar shipped sampleState))).
Proof.
  destruct (chooseBar_center shipped sampleState) as (_ & Hx & _ & Hy & _).
  assert (L1 : fst (fst (chooseBar shipped sampleState))
               < canvasWidth shipped
                 - fst (fst (chooseBar shipped sampleState)))
    by (vm_compute; reflexivity).
  assert (L2 : fst (fst (chooseBar shipped sampleState))
               < y1 (frame (seed shipped))
                 + (y2 (frame (seed shipped)) - y1 (frame (seed shipped))) / 2)
    by (vm_compute; reflexivity).
  split; [exact L1|]. split; [exact L2|].
  split; [exact (proj1 (Hx L1)) | exact (proj1 (Hy L2))].
Defined.

(** C5 as stated fails: on the seed shape of the library (frame
    [120, 70, 392, 512]) and the shipped canvas width [512], the state
    [(1, 2, 3, 4)] gives radius [61] and the centre [(386, 65)], above
    [frame.y1 = 70]. *)
Lemma bar_centre_above_frame :
  x1 (frame seedFire) < x2 (frame seedFire)
  /\ y1 (frame seedFire) < y2 (frame seedFire)
  /\ fst (fst (chooseBar shipped sampleState)) == 61
  /\ px (snd (fst (chooseBar shipped sampleState))) == 386
  /\ py (snd (fst (chooseBar shipped sampleState))) == 65
  /\ ~ (y1 (frame (seed shipped))
        <= py (snd (fst (chooseBar shipped sampleState)))).
Proof.
  repeat split; try (vm_compute; reflexivity).
  vm_compute. intros H. apply H. reflexivity.
Qed.

End GeneratorFacts.

(** ** Tiers and palettes *)

Module TierFacts.

Import Tier.

Local Open Scope Z_scope.

(** The boundaries the counter has reached. *)
Definition reached (gasUsed : Z) (bs : list Z) : list Z :=
  filter (fun b => b <=? gasUsed) bs.

Lemma reached_none (gasUsed : Z) (bs : list Z) :
  Forall (fun b => gasUsed < b) bs -> reached gasUsed bs = [].
Proof.
  induction 1 as [|b bs Hb _ IH]; [reflexivity|].
  simpl. destruct (Z.leb_spec b gasUsed); [lia | exact IH].
Qed.

(** On an ascending table the loop counts the boundaries reached. *)
Lemma tierLoop_count (gasUsed : Z) (bs : list Z) :
  StronglySorted Z.le bs ->
  forall i,
    tierLoop gasUsed bs i = i + Z.of_nat (List.length (reached gasUsed bs)).
Proof.
  induction 1 as [|b bs Hs IH Hall]; intros i; simpl.
  - lia.
  - destruct (Z.ltb_spec gasUsed b) as [Hlt | Hge].
    + destruct (Z.leb_spec b gasUsed); [lia|].
      rewrite reached_none; [simpl; lia|].
      eapply Forall_impl; [|exact Hall]. simpl. intros; lia.
    + destruct (Z.leb_spec b gasUsed); [|lia].
      rewrite IH. simpl List.length. lia.
Qed.

Lemma tierBoundaries_sorted : StronglySorted Z.le tierBoundaries.
Proof.
  unfold tierBoundaries.
  repeat (constructor; [|repeat constructor; lia]). constructor.
Qed.

Lemma reached_le (gasUsed : Z) (bs : list Z) :
  (List.length (reached gasUsed bs) <= List.length bs)%nat.
Proof. apply filter_length_le. Qed.

Lemma checkTierOf_count (gasUsed : Z) :
  checkTierOf gasUsed
    = 1 + Z.of_nat (List.length (reached gasUsed tierBoundaries)).
Proof.
  unfold checkTierOf. rewrite (tierLoop_count gasUsed tierBoundaries_sorted).
  lia.
Qed.

Lemma checkTierOf_bounds (gasUsed : Z) : 1 <= checkTierOf gasUsed <= 8.
Proof.
  rewrite checkTierOf_count.
  pose proof (reached_le gasUsed tierBoundaries) as L.
  change (List.length tierBoundaries) with 7%nat in L. lia.
Qed.

(** C7: [checkTierOf] is one plus the number of boundaries of the table
    that the counter is greater than or equal to, it lies in [1, 8], and it
    takes the four listed values; the counter need not even be
    non-negative. *)
Theorem checkTierOf_spec (gasUsed : Z) :
  checkTierOf gasUsed
    = 1 + Z.of_nat (List.length (filter (fun b => b <=? gasUsed)
                                   [50000; 100000; 500000; 1000000; 5000000;
                                    10000000; 50000000]))
  /\ 1 <= checkTierOf gasUsed <= 8
  /\ checkTierOf 49999 = 1 /\ checkTierOf 50000 = 2
  /\ checkTierOf 50000000 = 8 /\ checkTierOf 999999999 = 8.
Proof.
  split; [apply checkTierOf_count|].
  split; [apply checkTierOf_bounds|].
  repeat split; reflexivity.
Qed.

(** The palette table has an entry for every tier the lookup can be given. *)
Lemma getTieredFireColor_total (gasUsed : Z) :
  exists c, getTieredFireColor (checkTierOf gasUsed) = Some c.
Proof.
  pose proof (checkTierOf_bounds gasUsed) as B.
  unfold getTieredFireColor, index.
  destruct (Z.ltb_spec (checkTierOf gasUsed - 1) 0); [lia|].
  destruct (nth_error tierFireColor (Z.to_nat (checkTierOf gasUsed - 1)))
    eqn:E; [eauto|].
  apply nth_error_None in E.
  change (List.length tierFireColor) with 8%nat in E. lia.
Qed.

End TierFacts.

(** ** The projective divisor *)

Module DivisorFacts.

Import Bezier Projection.




(** Two templates with the same corners, as numbers. *)
Definition eqCorner (p q : Point) : Prop := px p == px q /\ py p == py q.

Definition eqQuad (a b : Quad) : Prop :=
  eqCorner (c0 a) (c0 b) /\ eqCorner (c1 a) (c1 b)
  /\ eqCorner (c2 a) (c2 b) /\ eqCorner (c3 a) (c3 b).

Definition eqTemplate (a b : TransformTemplate) : Prop :=
  eqQuad (src a) (src b) /\ eqQuad (dest a) (dest b).








End DivisorFacts.

(** ** Drawing *)

Module RenderFacts.

Import Xorshift XorshiftFacts Tier TierFacts Bezier Projection Generator Render.
Import DivisorFacts.

(** The path of a shape as [drawBezierFire] traces it. *)
Definition curve (point : BezierLine) : DrawCall :=
  BezierCurveTo (cp1x point) (cp1y point) (cp2x point) (cp2y point)
    (lx point) (ly point).

Definition outline (f : BezierFire) : list DrawCall :=
  MoveTo (px (start f)) (py (start f)) :: map curve (points f) ++ [ClosePath].

(** Reading a log back: the path and the fill style at each [fill()]. *)
Fixpoint fillsFrom (calls path : list DrawCall) (style : string)
    : list (list DrawCall * string) :=
  match calls with
  | [] => []
  | BeginPath :: calls' => fillsFrom calls' [] style
  | FillStyle color :: calls' => fillsFrom calls' path color
  | Fill :: calls' => (path, style) :: fillsFrom calls' path style
  | op :: calls' => fillsFrom calls' (path ++ [op]) style
  end.

(** A fresh context fills with black. *)
Definition fills (calls : list DrawCall) : list (list DrawCall * string) :=
  fillsFrom calls [] "#000000".

(** What one round of each loop of [drawBezierFrame] fills. *)
Definition centroidFill (baseFire : BezierFire) (factor : Q) (color : string)
    (fire : BezierFire) : list DrawCall * string :=
  let moved := move fire (px (fireBase baseFire) - px (fireBase fire)) 0 in
  let c := calculateApproximateCentroid moved 10 in
  (outline (scale moved (px c) (py c) factor), color).

Definition baseFill (baseFire : BezierFire) (factor : Q) (color : string)
    (fire : BezierFire) : list DrawCall * string :=
  let moved := move fire (px (fireBase baseFire) - px (fireBase fire)) 0 in
  (outline (scale moved (px (fireBase moved)) (py (fireBase moved)) factor),
   color).

Lemma drawBezierFire_app (ctx : Context) (f : BezierFire) (c : string) :
  drawBezierFire ctx f c = ctx ++ drawBezierFire [] f c.
Proof. reflexivity. Qed.

Lemma drawBezierFire_calls (f : BezierFire) (c : string) :
  drawBezierFire [] f c = BeginPath :: outline f ++ [FillStyle c; Fill].
Proof.
  unfold drawBezierFire, outline. simpl.
  rewrite <- app_assoc. reflexivity.
Qed.

(** A loop of [drawBezierFrame] appends the calls of its rounds. *)
Lemma layer_app (layer : Context -> BezierFire -> Context) :
  (forall ctx f, layer ctx f = ctx ++ layer [] f) ->
  forall fires ctx,
    fold_left layer fires ctx
      = ctx ++ List.concat (map (layer []) fires).
Proof.
  intros Happ. induction fires as [|f fires IH]; intros ctx; simpl.
  - rewrite app_nil_r. reflexivity.
  - rewrite IH, (Happ ctx f), <- app_assoc. reflexivity.
Qed.

Lemma centroidLayer_app b k c ctx f :
  centroidLayer b k c ctx f = ctx ++ centroidLayer b k c [] f.
Proof. reflexivity. Qed.

Lemma baseLayer_app b k c ctx f :
  baseLayer b k c ctx f = ctx ++ baseLayer b k c [] f.
Proof. reflexivity. Qed.

(** The calls [drawBezierFrame] makes on a non-empty list. *)
Definition frameCalls (fireColor : TieredFireColor) (baseFire : BezierFire)
    (bezierFires : list BezierFire) : list DrawCall :=
  List.concat (map (centroidLayer baseFire 1 "#ffffff" []) bezierFires)
  ++ List.concat (map (centroidLayer baseFire (93 # 100) "#000000" []) bezierFires)
  ++ List.concat (map (centroidLayer baseFire (84 # 100) (outer fireColor) [])
               bezierFires)
  ++ List.concat (map (baseLayer baseFire (55 # 100) (middle fireColor) [])
               bezierFires)
  ++ drawBezierFire []
       (scale baseFire (px (fireBase baseFire)) (py (fireBase baseFire))
          (3 # 10))
       (inner fireColor).

Lemma drawBezierFrame_app (ctx : Context) (fireColor : TieredFireColor)
    (baseFire : BezierFire) (rest : list BezierFire) :
  drawBezierFrame ctx fireColor (baseFire :: rest)
    = Some (ctx ++ frameCalls fireColor baseFire (baseFire :: rest)).
Proof.
  unfold drawBezierFrame, frameCalls.
  rewrite drawBezierFire_app.
  rewrite !(layer_app _ (centroidLayer_app _ _ _)).
  rewrite (layer_app _ (baseLayer_app _ _ _)).
  rewrite <- !app_assoc. reflexivity.
Qed.

Lemma fillsFrom_curves (pts : list BezierLine) (tail path : list DrawCall)
    (style : string) :
  fillsFrom (map curve pts ++ tail) path style
    = fillsFrom tail (path ++ map curve pts) style.
Proof.
  revert path. induction pts as [|p pts IH]; intros path; simpl.
  - rewrite app_nil_r. reflexivity.
  - rewrite IH, <- app_assoc. reflexivity.
Qed.

(** One shape drawn: one fill, of its outline, in its colour, whatever was
    traced or set before. *)
Lemma fillsFrom_drawBezierFire (f : BezierFire) (c : string)
    (tail path : list DrawCall) (style : string) :
  fillsFrom (drawBezierFire [] f c ++ tail) path style
    = (outline f, c) :: fillsFrom tail (outline f) c.
Proof.
  rewrite drawBezierFire_calls. unfold outline. simpl.
  rewrite <- !app_assoc. rewrite fillsFrom_curves. simpl. reflexivity.
Qed.

Lemma fillsFrom_layer (layer : BezierFire -> Context)
    (fill : BezierFire -> list DrawCall * string) :
  (forall f tail path style,
      fillsFrom (layer f ++ tail) path style
        = fill f :: fillsFrom tail (fst (fill f)) (snd (fill f))) ->
  forall fires tail path style,
    exists path' style',
      fillsFrom (List.concat (map layer fires) ++ tail) path style
        = map fill fires ++ fillsFrom tail path' style'.
Proof.
  intros Hl. induction fires as [|f fires IH]; intros tail path style; simpl.
  - eauto.
  - rewrite <- app_assoc, Hl.
    destruct (IH tail (fst (fill f)) (snd (fill f))) as (p' & s' & E).
    rewrite E. eauto.
Qed.

Lemma fillsFrom_centroidLayer b k c f tail path style :
  fillsFrom (centroidLayer b k c [] f ++ tail) path style
    = centroidFill b k c f
      :: fillsFrom tail (fst (centroidFill b k c f))
           (snd (centroidFill b k c f)).
Proof. unfold centroidLayer. rewrite fillsFrom_drawBezierFire. reflexivity. Qed.

Lemma fillsFrom_baseLayer b k c f tail path style :
  fillsFrom (baseLayer b k c [] f ++ tail) path style
    = baseFill b k c f
      :: fillsFrom tail (fst (baseFill b k c f)) (snd (baseFill b k c f)).
Proof. unfold baseLayer. rewrite fillsFrom_drawBezierFire. reflexivity. Qed.

(** C8: on a list of two to four instances [drawBezierFrame] fills, in this
    order, every instance in white (scale 1.0 about its centroid), every
    instance in black (0.93), every instance in the outer colour (0.84),
    every instance in the middle colour (0.55 about its base), and then the
    first instance once in the inner colour (0.3 about its base): [4n + 1]
    fills for [n] instances. *)
Theorem drawBezierFrame_layers (ctx : Context) (fireColor : TieredFireColor)
    (baseFire : BezierFire) (rest : list BezierFire) :
  (2 <= List.length (baseFire :: rest) <= 4)%nat ->
  exists emitted,
    drawBezierFrame ctx fireColor (baseFire :: rest) = Some (ctx ++ emitted)
    /\ fills emitted
       = map (centroidFill baseFire 1 "#ffffff") (baseFire :: rest)
         ++ map (centroidFill baseFire (93 # 100) "#000000") (baseFire :: rest)
         ++ map (centroidFill baseFire (84 # 100) (outer fireColor))
              (baseFire :: rest)
         ++ map (baseFill baseFire (55 # 100) (middle fireColor))
              (baseFire :: rest)
         ++ [(outline (scale baseFire (px (fireBase baseFire))
                         (py (fireBase baseFire)) (3 # 10)),
              inner fireColor)]
    /\ List.length (fills emitted)
       = (4 * List.length (baseFire :: rest) + 1)%nat.
Proof.
  intros _. set (fires := baseFire :: rest).
  exists (frameCalls fireColor baseFire fires).
  split; [apply drawBezierFrame_app|].
  assert (E : fills (frameCalls fireColor baseFire fires)
       = map (centroidFill baseFire 1 "#ffffff") fires
         ++ map (centroidFill baseFire (93 # 100) "#000000") fires
         ++ map (centroidFill baseFire (84 # 100) (outer fireColor)) fires
         ++ map (baseFill baseFire (55 # 100) (middle fireColor)) fires
         ++ [(outline (scale baseFire (px (fireBase baseFire))
                         (py (fireBase baseFire)) (3 # 10)),
              inner fireColor)]).
  { unfold fills, frameCalls.
    edestruct (fillsFrom_layer _ _
                 (fillsFrom_centroidLayer baseFire 1 "#ffffff") fires)
      as (p1 & s1 & E1).
    rewrite E1; clear E1. f_equal.
    edestruct (fillsFrom_layer _ _
                 (fillsFrom_centroidLayer baseFire (93 # 100) "#000000") fires)
      as (p2 & s2 & E2).
    rewrite E2; clear E2. f_equal.
    edestruct (fillsFrom_layer _ _
                 (fillsFrom_centroidLayer baseFire (84 # 100)
                    (outer fireColor)) fires)
      as (p3 & s3 & E3).
    rewrite E3; clear E3. f_equal.
    edestruct (fillsFrom_layer _ _
                 (fillsFrom_baseLayer baseFire (55 # 100)
                    (middle fireColor)) fires)
      as (p4 & s4 & E4).
    rewrite E4; clear E4. f_equal.
    rewrite <- (app_nil_r (drawBezierFire [] _ _)).
    rewrite fillsFrom_drawBezierFire. reflexivity. }
  split; [exact E|].
  rewrite E. rewrite !List.length_app, !List.length_map. simpl. lia.
Qed.

(** *** The instances *)

Section Instances.

Variable atan : Quotient -> Q.
Variables cos sin : Q -> Q.
Variable PI : Q.

(** The seed index is drawn from the empty range [0, 0): it is [0], no
    number is consumed, and the lookup finds the seed shape. *)
Lemma seedIdx_zero (g : XorShift) :
  nextIntBet 0 (inject_Z (Z.of_nat (List.length bezierFireSeeds)) - 1) g
    = (0, g)
  /\ indexQ bezierFireSeeds 0 = Some seedFire.
Proof.
  split; [|reflexivity].
  apply nextIntBet_empty. vm_compute. discriminate.
Qed.

Lemma placeFire_first (width : Q) (g : XorShift) :
  placeFire atan cos sin PI width 0 g = (Some seedFire, g).
Proof.
  unfold placeFire, bind. rewrite (proj1 (seedIdx_zero g)).
  rewrite (proj2 (seedIdx_zero g)). reflexivity.
Qed.

(** Every instance after the first is the seed shape sent through the
    transform that [nextTransform] builds from the current state. *)
Lemma placeFire_next (width : Q) (i : Z) (g : XorShift) :
  (0 < i)%Z ->
  placeFire atan cos sin PI width i g
    = (Some (transformBezier
               (fst (nextTransform atan cos sin PI (createBy seedFire width) g))
               seedFire),
       snd (nextTransform atan cos sin PI (createBy seedFire width) g)).
Proof.
  intros Hi. unfold placeFire, bind. rewrite (proj1 (seedIdx_zero g)).
  rewrite (proj2 (seedIdx_zero g)).
  apply Z.ltb_lt in Hi. rewrite Hi.
  destruct (nextTransform atan cos sin PI (createBy seedFire width) g).
  reflexivity.
Qed.

Definition threeSegments (f : BezierFire) : Prop :=
  List.length (points f) = 3%nat.

Lemma placeFire_total (width : Q) (i : Z) (g : XorShift) :
  exists fire g',
    placeFire atan cos sin PI width i g = (Some fire, g')
    /\ threeSegments fire.
Proof.
  destruct (Z.ltb_spec 0 i) as [Hi | Hi].
  - rewrite (placeFire_next width g Hi). do 2 eexists. split; [reflexivity|].
    unfold threeSegments, transformBezier.
    repeat match goal with |- context [let '(_, _) := ?t in _] =>
      destruct t end.
    cbn [points]. rewrite List.length_map. reflexivity.
  - assert (E : placeFire atan cos sin PI width i g = (Some seedFire, g)).
    { unfold placeFire, bind. rewrite (proj1 (seedIdx_zero g)).
      rewrite (proj2 (seedIdx_zero g)).
      destruct (Z.ltb_spec 0 i); [lia | reflexivity]. }
    rewrite E. do 2 eexists. split; reflexivity.
Qed.

Lemma placeFires_step (width : Q) (rounds : nat) (i : Z)
    (acc : list BezierFire) (g g' : XorShift) (fire : BezierFire) :
  placeFire atan cos sin PI width i g = (Some fire, g') ->
  placeFires atan cos sin PI width (S rounds) i acc g
    = placeFires atan cos sin PI width rounds (i + 1) (acc ++ [fire]) g'.
Proof. intros E. simpl. unfold bind at 1. rewrite E. reflexivity. Qed.

Lemma placeFires_total (width : Q) (rounds : nat) :
  forall (i : Z) (acc : list BezierFire) (g : XorShift),
  exists fires g',
    placeFires atan cos sin PI width rounds i acc g = (Some fires, g')
    /\ List.length fires = (List.length acc + rounds)%nat
    /\ (Forall threeSegments acc -> Forall threeSegments fires).
Proof.
  induction rounds as [|rounds IH]; intros i acc g.
  - exists acc, g. repeat split; [simpl; lia | auto].
  - destruct (placeFire_total width i g) as (fire & g1 & E & T).
    destruct (IH (i + 1)%Z (acc ++ [fire]) g1) as (fires & g2 & E2 & L & F).
    exists fires, g2. simpl. unfold bind at 1. rewrite E.
    split; [exact E2|]. split.
    + rewrite L, List.length_app. simpl. lia.
    + intros Hacc. apply F. apply Forall_app. split; [exact Hacc|].
      constructor; [exact T | constructor].
Qed.

(** [renderImage] places two or three instances, each with three
    segments. *)
Lemma chooseFires_total (width : Q) (address : string) :
  exists fires,
    chooseFires atan cos sin PI width address = Some fires
    /\ (List.length fires = 2%nat \/ List.length fires = 3%nat)
    /\ Forall threeSegments fires.
Proof.
  unfold chooseFires, bind.
  pose proof (nextIntBet_2_4 (getDeterministicRandomBy address)) as H.
  destruct (nextIntBet 2 4 (getDeterministicRandomBy address)) as [n g1].
  cbn [fst] in H.
  destruct (placeFires_total width (Z.to_nat (Qceiling n)) 0 [] g1)
    as (fires & g2 & E & L & F).
  exists fires. rewrite E. split; [reflexivity|]. split; [|auto].
  rewrite L. destruct H as [H | H]; rewrite H; [left | right]; reflexivity.
Qed.





Lemma renderImage_calls (width height : Q) (address : string) (gasUsed : Z) :
  exists calls,
    forall ctx,
      renderImage atan cos sin PI ctx width height address gasUsed
        = Some (ctx ++ calls).
Proof.
  unfold renderImage.
  destruct (chooseFires_total width address) as (fires & E & L & _).
  destruct (getTieredFireColor_total gasUsed) as (c & Ec).
  rewrite E, Ec.
  destruct fires as [|baseFire rest]; [simpl in L; destruct L; discriminate|].
  exists (frameCalls c baseFire (baseFire :: rest)).
  intros ctx. apply drawBezierFrame_app.
Qed.

End Instances.

(** C1: for every identifier, counter and canvas size (and whatever
    [Math.atan], [Math.cos], [Math.sin] and [Math.PI] are), [renderImage]
    completes and appends to the context one sequence of draw calls that
    depends on those arguments only: two invocations, on whatever contexts,
    emit the same calls. *)
Theorem renderImage_deterministic (atan : Quotient -> Q)
    (cos sin : Q -> Q) (PI width height : Q) (address : string)
    (gasUsed : Z) :
  exists calls,
    forall ctx1 ctx2 : Context,
      renderImage atan cos sin PI ctx1 width height address gasUsed
        = Some (ctx1 ++ calls)
      /\ renderImage atan cos sin PI ctx2 width height address gasUsed
         = Some (ctx2 ++ calls).
Proof.
  destruct (renderImage_calls atan cos sin PI width height address gasUsed)
    as (calls & H).
  exists calls. intros ctx1 ctx2. split; apply H.
Qed.

(** A state on which the instance count is [2], and one on which it is
    [3]. *)
Definition evenState : XorShift := mk (Int 0) (Int 0) (Int 0) (Int 0).

(** C2 as the code has it: the instance count [nextIntBet(2, 4)] is [2] or
    [3] on every generator state and never [4]; both [2] and [3] occur; and
    [renderImage] places two or three instances for every identifier. *)
Theorem fireNum_two_or_three :
  (forall g, fst (nextIntBet 2 4 g) == 2 \/ fst (nextIntBet 2 4 g) == 3)
  /\ (forall g, ~ fst (nextIntBet 2 4 g) == 4)
  /\ fst (nextIntBet 2 4 evenState) == 2
  /\ fst (nextIntBet 2 4 sampleState) == 3
  /\ (forall atan cos sin PI width address,
        exists fires,
          chooseFires atan cos sin PI width address = Some fires
          /\ (List.length fires = 2%nat \/ List.length fires = 3%nat)).
Proof.
  split; [exact nextIntBet_2_4|]. split.
  - intros g H. destruct (nextIntBet_2_4 g) as [E | E];
      rewrite E in H; discriminate H.
  - split; [reflexivity|]. split; [reflexivity|].
    intros atan cos sin PI width address.
    destruct (chooseFires_total atan cos sin PI width address)
      as (fires & E & L & _).
    exists fires. split; assumption.
Qed.

(** *** Divisions and lookups *)

(** The state in which the second instance asks for its transform: the
    count has been drawn, and the two seed draws so far consumed nothing. *)
Lemma second_instance (atan : Quotient -> Q) (cos sin : Q -> Q)
    (PI width : Q) (address : string) :
  exists rest,
    chooseFires atan cos sin PI width address
      = Some (seedFire
              :: transformBezier
                   (fst (nextTransform atan cos sin PI
                           (createBy seedFire width)
                           (snd (nextIntBet 2 4
                                   (getDeterministicRandomBy address)))))
                   seedFire
              :: rest).
Proof.
  unfold chooseFires, bind.
  pose proof (nextIntBet_2_4 (getDeterministicRandomBy address)) as H.
  destruct (nextIntBet 2 4 (getDeterministicRandomBy address)) as [n g1].
  cbn [fst snd] in *.
  assert (R : exists k, Z.to_nat (Qceiling n) = S (S k)).
  { assert (Q : Qceiling n = 2%Z \/ Qceiling n = 3%Z)
      by (destruct H as [H | H]; rewrite H; [left | right]; reflexivity).
    destruct Q as [Q | Q]; rewrite Q; [exists 0%nat | exists 1%nat];
      reflexivity. }
  destruct R as [k R]. rewrite R.
  erewrite placeFires_step; [|apply placeFire_first].
  erewrite placeFires_step; [|apply placeFire_next; lia].
  cbn [app].
  destruct (placeFires_total atan cos sin PI width k (0 + 1 + 1)
              [seedFire;
               transformBezier
                 (fst (nextTransform atan cos sin PI (createBy seedFire width)
                         g1)) seedFire]
              (snd (nextTransform atan cos sin PI (createBy seedFire width)
                      g1)))
    as (fires & g2 & E & L & _).
  rewrite E. cbn [fst].
  assert (P : forall rounds i acc g,
             exists tail,
               fst (placeFires atan cos sin PI width rounds i acc g)
                 = None
               \/ fst (placeFires atan cos sin PI width rounds i acc g)
                  = Some (acc ++ tail)).
  { induction rounds as [|r IH]; intros i acc g.
    - exists []. right. simpl. rewrite app_nil_r. reflexivity.
    - simpl. unfold bind.
      destruct (placeFire atan cos sin PI width i g) as [[f|] g'].
      + destruct (IH (i + 1)%Z (acc ++ [f]) g') as (tail & [N | S]).
        * exists []. left. exact N.
        * exists (f :: tail). right. rewrite S, <- app_assoc. reflexivity.
      + exists []. left. reflexivity. }
  destruct (P k (0 + 1 + 1)%Z
              [seedFire;
               transformBezier
                 (fst (nextTransform atan cos sin PI (createBy seedFire width)
                         g1)) seedFire]
              (snd (nextTransform atan cos sin PI (createBy seedFire width)
                      g1))) as (tail & [N | S]).
  - rewrite E in N. discriminate N.
  - rewrite E in S. cbn [fst] in S. exists tail. rewrite S. reflexivity.
Qed.

(** An identifier whose second instance has its bar centred on the left
    edge of the frame. *)
Definition edgeAddress : string :=
  "0x000000000000000000000000000000000000003f".

(** The state in which the second instance of [edgeAddress] asks for its
    transform, and the bar centre drawn in it on the 512 pixel canvas. *)
Definition edgeState : XorShift :=
  snd (nextIntBet 2 4 (getDeterministicRandomBy edgeAddress)).








(** *** Instances *)

(** The template of the second instance of [edgeAddress] when its bar is
    left level, the ends at [(63, 183)] and [(177, 183)], and the transform
    that is solved for it. *)
Definition levelTemplate : TransformTemplate :=
  mkTemplate
    (mkQuad (mkPoint 120 70) (mkPoint 392 70) (mkPoint 392 512)
       (mkPoint 120 512))
    (mkQuad (mkPoint 63 183) (mkPoint 177 183) (mkPoint 392 512)
       (mkPoint 120 512)).


(** [levelTemplate] is what [nextTransform] solves in [edgeState] when
    [Math.cos] gives [1] and [Math.sin] gives [0]. *)
Lemma levelTemplate_instance :
  eqTemplate
    (template
       (fst (nextTransform (fun _ => 0) (fun _ => 1) (fun _ => 0) (22 # 7)
               (createBy seedFire 512) edgeState)))
    levelTemplate.
Proof. unfold eqTemplate, eqQuad, eqCorner. lazy. repeat split. Qed.


Definition cold : TieredFireColor := mkColor "#414141" "#797979" "#ffffff".

Lemma drawBezierFrame_layers_witness :
  (2 <= List.length (seedFire :: [seedFire]) <= 4)%nat
  /\ exists emitted,
       drawBezierFrame [] cold (seedFire :: [seedFire]) = Some ([] ++ emitted)
       /\ List.length (fills emitted) = 9%nat.
Proof.
  assert (L : (2 <= List.length (seedFire :: [seedFire]) <= 4)%nat)
    by (simpl; lia).
  split; [exact L|].
  destruct (@drawBezierFrame_layers [] cold seedFire [seedFire] L)
    as (emitted & E & _ & N).
  exists emitted. split; [exact E | exact N].
Defined.

End RenderFacts.

(** ** The homography solver *)

Module ProjectionFacts.

Import Bezier Projection.

Definition vec4 : Type := (Q * Q * Q * Q)%type.

(** A [mat4], read row by row, applied to a column. *)
Definition mulv (a : mat4) (v : vec4) : vec4 :=
  let '(v0, v1, v2, v3) := v in
  (m0 a * v0 + m1 a * v1 + m2 a * v2 + m3 a * v3,
   m4 a * v0 + m5 a * v1 + m6 a * v2 + m7 a * v3,
   m8 a * v0 + m9 a * v1 + m10 a * v2 + m11 a * v3,
   m12 a * v0 + m13 a * v1 + m14 a * v2 + m15 a * v3).

Definition veq (u v : vec4) : Prop :=
  let '(u0, u1, u2, u3) := u in
  let '(v0, v1, v2, v3) := v in
  u0 == v0 /\ u1 == v1 /\ u2 == v2 /\ u3 == v3.

Ltac fields :=
  cbn [m0 m1 m2 m3 m4 m5 m6 m7 m8 m9 m10 m11 m12 m13 m14 m15] in *.

(** [invert] solves linear systems: [a (a^-1 v) = v] when the determinant
    is not zero. *)
Lemma mulv_invert (a : mat4) (v : vec4) :
  ~ determinant a == 0 -> veq (mulv a (mulv (invert a) v)) v.
Proof.
  intros H.
  destruct a as [a0 a1 a2 a3 a4 a5 a6 a7 a8 a9 a10 a11 a12 a13 a14 a15].
  destruct v as [[[v0 v1] v2] v3].
  unfold invert. unfold determinant in H. fields. cbv zeta in *.
  destruct (Qeq_bool _ 0) eqn:B.
  { apply Qeq_bool_eq in B. contradiction. }
  clear B. unfold mulv, veq. fields.
  repeat split; field; exact H.
Qed.

(** The points as the solver reads them, zero coordinates replaced. *)
Definition fixPoint (p : Point) : Point := mkPoint (Zfix (px p)) (Zfix (py p)).

Definition fixQuad (q : Quad) : Quad :=
  mkQuad (fixPoint (c0 q)) (fixPoint (c1 q)) (fixPoint (c2 q))
    (fixPoint (c3 q)).

(** The matrix [tx] (or [ty]) before it is inverted, for the four
    destination abscissas (or ordinates) [d0 .. d3]. *)
Definition system (s : Quad) (d0 d1 d2 d3 : Q) : mat4 :=
  fromValues
    (px (c0 s)) (py (c0 s)) (- px (c0 s) * d0) (- py (c0 s) * d0)
    (px (c1 s)) (py (c1 s)) (- px (c1 s) * d1) (- py (c1 s) * d1)
    (px (c2 s)) (py (c2 s)) (- px (c2 s) * d2) (- py (c2 s) * d2)
    (px (c3 s)) (py (c3 s)) (- px (c3 s) * d3) (- py (c3 s) * d3).

Definition systemX (s d : Quad) : mat4 :=
  system (fixQuad s) (px (c0 (fixQuad d))) (px (c1 (fixQuad d)))
    (px (c2 (fixQuad d))) (px (c3 (fixQuad d))).

Definition systemY (s d : Quad) : mat4 :=
  system (fixQuad s) (py (c0 (fixQuad d))) (py (c1 (fixQuad d)))
    (py (c2 (fixQuad d))) (py (c3 (fixQuad d))).

(** [det_1] before the test against zero. *)
Definition translationDet (s d : Quad) : Q :=
  let tx := invert (systemX s d) in
  let ty := invert (systemY s d) in
  det1 (m8 tx + m9 tx + m10 tx + m11 tx) (m12 tx + m13 tx + m14 tx + m15 tx)
       (m8 ty + m9 ty + m10 ty + m11 ty) (m12 ty + m13 ty + m14 ty + m15 ty).

(** [param] from the two inverted matrices and the destination corners. *)
Definition params (tx ty : mat4) (d : Quad) : mat3 :=
  let x1 := px (c0 d) in let x2 := px (c1 d) in
  let x3 := px (c2 d) in let x4 := px (c3 d) in
  let y1 := py (c0 d) in let y2 := py (c1 d) in
  let y3 := py (c2 d) in let y4 := py (c3 d) in
  let kx1 := m0 tx * x1 + m1 tx * x2 + m2 tx * x3 + m3 tx * x4 in
  let kc1 := m0 tx + m1 tx + m2 tx + m3 tx in
  let kx2 := m4 tx * x1 + m5 tx * x2 + m6 tx * x3 + m7 tx * x4 in
  let kc2 := m4 tx + m5 tx + m6 tx + m7 tx in
  let kx3 := m8 tx * x1 + m9 tx * x2 + m10 tx * x3 + m11 tx * x4 in
  let kc3 := m8 tx + m9 tx + m10 tx + m11 tx in
  let kx4 := m12 tx * x1 + m13 tx * x2 + m14 tx * x3 + m15 tx * x4 in
  let kc4 := m12 tx + m13 tx + m14 tx + m15 tx in
  let ky1 := m0 ty * y1 + m1 ty * y2 + m2 ty * y3 + m3 ty * y4 in
  let kf1 := m0 ty + m1 ty + m2 ty + m3 ty in
  let ky2 := m4 ty * y1 + m5 ty * y2 + m6 ty * y3 + m7 ty * y4 in
  let kf2 := m4 ty + m5 ty + m6 ty + m7 ty in
  let ky3 := m8 ty * y1 + m9 ty * y2 + m10 ty * y3 + m11 ty * y4 in
  let kf3 := m8 ty + m9 ty + m10 ty + m11 ty in
  let ky4 := m12 ty * y1 + m13 ty * y2 + m14 ty * y3 + m15 ty * y4 in
  let kf4 := m12 ty + m13 ty + m14 ty + m15 ty in
  let det_1 := det1 kc3 kc4 kf3 kf4 in
  let det_1 := if Qeq_bool det_1 0 then 1 # 10000 else det_1 in
  let det_1 := 1 / det_1 in
  let C := (- kf4 * det_1) * (kx3 - ky3) + (kf3 * det_1) * (kx4 - ky4) in
  let F := (- kc4 * det_1) * (kx3 - ky3) + (kc3 * det_1) * (kx4 - ky4) in
  mkMat3 (kx1 - C * kc1) (kx2 - C * kc2) C
         (ky1 - F * kf1) (ky2 - F * kf2) F
         (kx3 - C * kc3) (kx4 - C * kc4) 1.

(** The solver in these terms. *)
Lemma calcProjectionMatrix_params (s d : Quad) :
  calcProjectionMatrix s d
    = params (invert (systemX s d)) (invert (systemY s d)) (fixQuad d).
Proof. reflexivity. Qed.

Lemma Zfix_nonzero (v : Q) : ~ v == 0 -> Zfix v = v.
Proof.
  intros H. unfold Zfix. destruct (Qeq_bool v 0) eqn:B; [|reflexivity].
  apply Qeq_bool_eq in B. contradiction.
Qed.

Definition nonzeroPoint (p : Point) : Prop := ~ px p == 0 /\ ~ py p == 0.

Definition nonzeroCoords (q : Quad) : Prop :=
  nonzeroPoint (c0 q) /\ nonzeroPoint (c1 q) /\ nonzeroPoint (c2 q)
  /\ nonzeroPoint (c3 q).

Lemma fixQuad_nonzero (q : Quad) : nonzeroCoords q -> fixQuad q = q.
Proof.
  destruct q as [[a0 b0] [a1 b1] [a2 b2] [a3 b3]].
  unfold nonzeroCoords, nonzeroPoint, fixQuad, fixPoint. cbn.
  intros ((?&?)&(?&?)&(?&?)&(?&?)).
  rewrite !Zfix_nonzero by assumption. reflexivity.
Qed.

(** One corner, from the four equations that the two solved systems give
    for it and the agreement of the two systems on the projective terms. *)
Section Corner.

Variables X Y x y : Q.
Variables kx1 kx2 kx3 kx4 kc1 kc2 kc3 kc4 : Q.
Variables ky1 ky2 ky3 ky4 kf1 kf2 kf3 kf4 C F : Q.

Hypothesis E1 : X * kx1 + Y * kx2 + (- X * x) * kx3 + (- Y * x) * kx4 == x.
Hypothesis E2 : X * kc1 + Y * kc2 + (- X * x) * kc3 + (- Y * x) * kc4 == 1.
Hypothesis E3 : X * ky1 + Y * ky2 + (- X * y) * ky3 + (- Y * y) * ky4 == y.
Hypothesis E4 : X * kf1 + Y * kf2 + (- X * y) * kf3 + (- Y * y) * kf4 == 1.
Hypothesis Hg : kx3 - C * kc3 == ky3 - F * kf3.
Hypothesis Hh : kx4 - C * kc4 == ky4 - F * kf4.

Let z := X * (kx3 - C * kc3) + Y * (kx4 - C * kc4) + 1.

Hypothesis Hz : ~ z == 0.

Lemma corner_x : (X * (kx1 - C * kc1) + Y * (kx2 - C * kc2) + C) / z == x.
Proof.
  assert (N : X * (kx1 - C * kc1) + Y * (kx2 - C * kc2) + C == x * z).
  { subst z.
    assert (D : X * (kx1 - C * kc1) + Y * (kx2 - C * kc2) + C
                - x * (X * (kx3 - C * kc3) + Y * (kx4 - C * kc4) + 1)
                == (X * kx1 + Y * kx2 + (- X * x) * kx3 + (- Y * x) * kx4 - x)
                   - C * (X * kc1 + Y * kc2 + (- X * x) * kc3
                          + (- Y * x) * kc4 - 1)) by ring.
    rewrite E1, E2 in D. lra. }
  rewrite N. field. exact Hz.
Qed.

Lemma corner_y : (X * (ky1 - F * kf1) + Y * (ky2 - F * kf2) + F) / z == y.
Proof.
  assert (N : X * (ky1 - F * kf1) + Y * (ky2 - F * kf2) + F == y * z).
  { subst z. rewrite Hg, Hh.
    assert (D : X * (ky1 - F * kf1) + Y * (ky2 - F * kf2) + F
                - y * (X * (ky3 - F * kf3) + Y * (ky4 - F * kf4) + 1)
                == (X * ky1 + Y * ky2 + (- X * y) * ky3 + (- Y * y) * ky4 - y)
                   - F * (X * kf1 + Y * kf2 + (- X * y) * kf3
                          + (- Y * y) * kf4 - 1)) by ring.
    rewrite E3, E4 in D. lra. }
  rewrite N. field. exact Hz.
Qed.

End Corner.

(** The two translation terms make the two systems agree on the projective
    terms. *)
Lemma translation_terms (kx3 kx4 kc3 kc4 ky3 ky4 kf3 kf4 : Q) :
  ~ det1 kc3 kc4 kf3 kf4 == 0 ->
  let det_1 := 1 / det1 kc3 kc4 kf3 kf4 in
  let C := (- kf4 * det_1) * (kx3 - ky3) + (kf3 * det_1) * (kx4 - ky4) in
  let F := (- kc4 * det_1) * (kx3 - ky3) + (kc3 * det_1) * (kx4 - ky4) in
  kx3 - C * kc3 == ky3 - F * kf3 /\ kx4 - C * kc4 == ky4 - F * kf4.
Proof.
  unfold det1. intros H. cbv zeta. split; field; exact H.
Qed.

(** [transform] sends a source corner to the destination corner. *)
Definition maps (t : ProjectiveTransform) (a b : Point) : Prop :=
  fst (transform t (px a) (py a)) == px b
  /\ snd (transform t (px a) (py a)) == py b.

Lemma ones (a b c d : Q) : a * 1 + b * 1 + c * 1 + d * 1 == a + b + c + d.
Proof. ring. Qed.

(** C9 as the code has it: when no coordinate of [A] or [B] is zero, the
    two 4x4 systems and the determinant of the translation terms are not
    singular, and the divisor of [transform] is not zero at the corners of
    [A], the transform solved from [A] to [B] sends each corner of [A] to
    the corresponding corner of [B], exactly. *)
Theorem createTransformBy_roundtrip (A B : Quad) :
  nonzeroCoords A -> nonzeroCoords B ->
  ~ determinant (systemX A B) == 0 ->
  ~ determinant (systemY A B) == 0 ->
  ~ translationDet A B == 0 ->
  let t := createTransformBy (mkTemplate A B) in
  ~ divisor t (px (c0 A)) (py (c0 A)) == 0 ->
  ~ divisor t (px (c1 A)) (py (c1 A)) == 0 ->
  ~ divisor t (px (c2 A)) (py (c2 A)) == 0 ->
  ~ divisor t (px (c3 A)) (py (c3 A)) == 0 ->
  maps t (c0 A) (c0 B) /\ maps t (c1 A) (c1 B)
  /\ maps t (c2 A) (c2 B) /\ maps t (c3 A) (c3 B).
Proof.
  intros NA NB DX DY DT t.
  unfold maps, transform, divisor. subst t.
  unfold createTransformBy. cbn [mat template src dest].
  rewrite calcProjectionMatrix_params.
  unfold translationDet in DT.
  pose proof (@mulv_invert (systemX A B)
                (px (c0 B), px (c1 B), px (c2 B), px (c3 B)) DX) as SX.
  pose proof (@mulv_invert (systemX A B) (1, 1, 1, 1) DX) as SC.
  pose proof (@mulv_invert (systemY A B)
                (py (c0 B), py (c1 B), py (c2 B), py (c3 B)) DY) as SY.
  pose proof (@mulv_invert (systemY A B) (1, 1, 1, 1) DY) as SF.
  set (tx := invert (systemX A B)) in *.
  set (ty := invert (systemY A B)) in *.
  unfold systemX, systemY in SX, SC, SY, SF.
  rewrite (fixQuad_nonzero NA), (fixQuad_nonzero NB) in *.
  clearbody tx ty.
  destruct A as [[X1 Y1] [X2 Y2] [X3 Y3] [X4 Y4]].
  destruct B as [[x1 y1] [x2 y2] [x3 y3] [x4 y4]].
  unfold mulv, veq, system, fromValues in SX, SC, SY, SF.
  cbn [px py c0 c1 c2 c3] in *. fields.
  rewrite !ones in SC, SF.
  unfold params. cbn [px py c0 c1 c2 c3]. cbv zeta.
  destruct (Qeq_bool _ 0) eqn:B0.
  { apply Qeq_bool_eq in B0. contradiction. }
  clear B0.
  destruct (@translation_terms
              (m8 tx * x1 + m9 tx * x2 + m10 tx * x3 + m11 tx * x4)
              (m12 tx * x1 + m13 tx * x2 + m14 tx * x3 + m15 tx * x4)
              (m8 tx + m9 tx + m10 tx + m11 tx)
              (m12 tx + m13 tx + m14 tx + m15 tx)
              (m8 ty * y1 + m9 ty * y2 + m10 ty * y3 + m11 ty * y4)
              (m12 ty * y1 + m13 ty * y2 + m14 ty * y3 + m15 ty * y4)
              (m8 ty + m9 ty + m10 ty + m11 ty)
              (m12 ty + m13 ty + m14 ty + m15 ty) DT) as [Hg Hh].
  cbv zeta in Hg, Hh.
  cbn [p0 p1 p2 p3 p4 p5 p6 p7 p8].
  destruct SX as (SX1 & SX2 & SX3 & SX4).
  destruct SC as (SC1 & SC2 & SC3 & SC4).
  destruct SY as (SY1 & SY2 & SY3 & SY4).
  destruct SF as (SF1 & SF2 & SF3 & SF4).
  intros Z1 Z2 Z3 Z4.
  repeat split.
  - exact (corner_x SX1 SC1 Z1).
  - exact (corner_y SY1 SF1 Hg Hh Z1).
  - exact (corner_x SX2 SC2 Z2).
  - exact (corner_y SY2 SF2 Hg Hh Z2).
  - exact (corner_x SX3 SC3 Z3).
  - exact (corner_y SY3 SF3 Hg Hh Z3).
  - exact (corner_x SX4 SC4 Z4).
  - exact (corner_y SY4 SF4 Hg Hh Z4).
Qed.

Ltac nonzero := let H := fresh in intros H; vm_compute in H; discriminate H.

(** A square and a quadrilateral in general position. *)
Definition square : Quad :=
  mkQuad (mkPoint 1 1) (mkPoint 2 1) (mkPoint 2 2) (mkPoint 1 2).

Definition kite : Quad :=
  mkQuad (mkPoint 1 1) (mkPoint 3 2) (mkPoint 4 5) (mkPoint 1 3).

Lemma createTransformBy_roundtrip_witness :
  nonzeroCoords square /\ nonzeroCoords kite
  /\ ~ determinant (systemX square kite) == 0
  /\ ~ determinant (systemY square kite) == 0
  /\ ~ translationDet square kite == 0
  /\ maps (createTransformBy (mkTemplate square kite)) (c0 square) (c0 kite)
  /\ maps (createTransformBy (mkTemplate square kite)) (c2 square) (c2 kite).
Proof.
  assert (NA : nonzeroCoords square) by (repeat split; nonzero).
  assert (NB : nonzeroCoords kite) by (repeat split; nonzero).
  assert (DX : ~ determinant (systemX square kite) == 0) by nonzero.
  assert (DY : ~ determinant (systemY square kite) == 0) by nonzero.
  assert (DT : ~ translationDet square kite == 0) by nonzero.
  pose proof (@createTransformBy_roundtrip square kite NA NB DX DY DT) as R.
  cbv zeta in R.
  assert (Z0 : ~ divisor (createTransformBy (mkTemplate square kite))
                   (px (c0 square)) (py (c0 square)) == 0) by nonzero.
  assert (Z1 : ~ divisor (createTransformBy (mkTemplate square kite))
                   (px (c1 square)) (py (c1 square)) == 0) by nonzero.
  assert (Z2 : ~ divisor (createTransformBy (mkTemplate square kite))
                   (px (c2 square)) (py (c2 square)) == 0) by nonzero.
  assert (Z3 : ~ divisor (createTransformBy (mkTemplate square kite))
                   (px (c3 square)) (py (c3 square)) == 0) by nonzero.
  destruct (R Z0 Z1 Z2 Z3) as (M0 & _ & M2 & _).
  repeat (split; [assumption|]). exact M2.
Defined.

(** The unit square at the origin, its image under [x -> 2x + 1], and a
    destination with three corners on one line. *)
Definition unitSquare : Quad :=
  mkQuad (mkPoint 0 0) (mkPoint 1 0) (mkPoint 1 1) (mkPoint 0 1).

Definition shifted : Quad :=
  mkQuad (mkPoint 1 1) (mkPoint 3 1) (mkPoint 3 3) (mkPoint 1 3).

Definition folded : Quad :=
  mkQuad (mkPoint 5 7) (mkPoint (-1 # 2) (-1 # 2)) (mkPoint (-3) (-2))
    (mkPoint 2 1).

(** C9 as stated fails.  With a zero coordinate in [A] the solver works on
    [0.5] in its place: from [unitSquare] to [shifted] nothing is singular,
    and the corner [(0, 0)] goes to [(-1, -1)], not to [(1, 1)].  And with
    no zero coordinate at all, from [square] to [folded] nothing is singular
    either, yet the divisor is zero at the corner [(1, 1)], which does not
    go to [(5, 7)]. *)
Lemma zero_coordinate_breaks_roundtrip :
  (~ determinant (systemX unitSquare shifted) == 0
   /\ ~ determinant (systemY unitSquare shifted) == 0
   /\ ~ translationDet unitSquare shifted == 0
   /\ fst (transform (createTransformBy (mkTemplate unitSquare shifted)) 0 0)
      == -1
   /\ ~ maps (createTransformBy (mkTemplate unitSquare shifted))
         (c0 unitSquare) (c0 shifted))
  /\ (nonzeroCoords square /\ nonzeroCoords folded
      /\ ~ determinant (systemX square folded) == 0
      /\ ~ determinant (systemY square folded) == 0
      /\ ~ translationDet square folded == 0
      /\ divisor (createTransformBy (mkTemplate square folded)) 1 1 == 0
      /\ ~ maps (createTransformBy (mkTemplate square folded))
            (c0 square) (c0 folded)).
Proof.
  split.
  - repeat split; try nonzero; try (vm_compute; reflexivity).
    intros [H _]. vm_compute in H. discriminate H.
  - repeat split; try nonzero; try (vm_compute; reflexivity).
    intros [H _]. vm_compute in H. discriminate H.
Qed.

End ProjectionFacts.


(** ** Seeding *)

Module SeedFacts.

Import JsString Xorshift.

Local Open Scope Z_scope.

Lemma take_zero (s : string) : take 0 s = EmptyString.
Proof. destruct s; reflexivity. Qed.

Lemma slice_empty (s : string) (start end_ : Z) :
  clampIndex (Z.of_nat (String.length s)) end_
    <= clampIndex (Z.of_nat (String.length s)) start ->
  slice s start end_ = EmptyString.
Proof.
  intros H. unfold slice.
  replace (Z.max _ 0) with 0 by lia. apply take_zero.
Qed.

(** The state words are the four chunks, the last eight characters in [w]. *)
Lemma getDeterministicRandomBy_words (address : string) :
  getDeterministicRandomBy address
    = mk (ofParse (parseInt16 (chunk address 3)))
         (ofParse (parseInt16 (chunk address 2)))
         (ofParse (parseInt16 (chunk address 1)))
         (ofParse (parseInt16 (chunk address 0))).
Proof. reflexivity. Qed.

Ltac clamp :=
  unfold clampIndex;
  repeat match goal with
         | |- context [?a <? ?b] => destruct (Z.ltb_spec a b)
         end; lia.

(** An identifier of fewer than 32 characters leaves one of the three upper
    chunks empty. *)
Lemma chunk_empty (address : string) :
  (String.length address < 32)%nat ->
  chunk address 3 = EmptyString \/ chunk address 2 = EmptyString
  \/ chunk address 1 = EmptyString.
Proof.
  intros H. unfold chunk.
  set (len := Z.of_nat (String.length address)).
  assert (B : 0 <= len < 32) by lia.
  assert (C : len < 5 \/ 5 <= len < 8 \/ 8 <= len < 16 \/ 16 <= len < 24
              \/ 24 <= len) by lia.
  destruct C as [C | [C | [C | [C | C]]]].
  - right; right. apply slice_empty. fold len. clamp.
  - right; left. apply slice_empty. fold len. clamp.
  - right; right. apply slice_empty. fold len. clamp.
  - right; left. apply slice_empty. fold len. clamp.
  - left. apply slice_empty. fold len. clamp.
Qed.

(** C3 as the code has it: seeding has no failure; an identifier of fewer
    than 32 characters still yields a generator state, in which at least one
    of the words [x], [y], [z] is [NaN], and [nextInt] reads a [NaN] word
    as [0]. *)
Theorem getDeterministicRandomBy_short (address : string) :
  (String.length address < 32)%nat ->
  (x (getDeterministicRandomBy address) = NaN
   \/ y (getDeterministicRandomBy address) = NaN
   \/ z (getDeterministicRandomBy address) = NaN)
  /\ toInt32 NaN = 0 /\ toUint32 NaN = 0.
Proof.
  intros H. split; [|split; reflexivity].
  rewrite getDeterministicRandomBy_words. cbn [x y z].
  destruct (chunk_empty address H) as [E | [E | E]]; rewrite E; auto.
Qed.

Definition shortAddress : string := "0x12345678".

Lemma getDeterministicRandomBy_short_witness :
  (String.length shortAddress < 32)%nat
  /\ (x (getDeterministicRandomBy shortAddress) = NaN
      \/ y (getDeterministicRandomBy shortAddress) = NaN
      \/ z (getDeterministicRandomBy shortAddress) = NaN).
Proof.
  assert (L : (String.length shortAddress < 32)%nat) by (vm_compute; lia).
  split; [exact L|].
  exact (proj1 (getDeterministicRandomBy_short shortAddress L)).
Defined.

(** The hexadecimal characters available at the end of an identifier once
    the prefix is removed. *)
Definition isHex (c : ascii) : bool :=
  match hexDigit c with Some _ => true | None => false end.

Fixpoint hexSuffix (s : string) : nat :=
  match s with
  | EmptyString => O
  | String c s' =>
      let n := hexSuffix s' in
      if Nat.eqb n (String.length s') && isHex c then S n else n
  end.

Definition availableHex (address : string) : nat :=
  hexSuffix (strip0x address).

Fixpoint zeros (n : nat) : string :=
  match n with O => EmptyString | S n' => String "0" (zeros n') end.

(** The fallback the specification names: the hexadecimal characters
    available, padded with zeros on the left to 32. *)
Definition seedZeroFilled (address : string) : XorShift :=
  let hex := strip0x address in
  getDeterministicRandomBy (zeros (32 - String.length hex) ++ hex).

(** The first [n] numbers a state yields. *)
Fixpoint draws (n : nat) (g : XorShift) : list Z :=
  match n with
  | O => []
  | S n' => let (v, g') := nextInt g in v :: draws n' g'
  end.

(** C3 as stated fails: ["0x12345678"] has eight hexadecimal characters
    after the prefix, and seeding neither rejects it nor fills with zeros.
    The state built is [(NaN, 18, NaN, 0x12345678)], the word [18] being
    the characters ["0x12"] read a second time, and its second number is
    not the one of the zero-filled state. *)
Lemma short_identifier_builds_state :
  (availableHex shortAddress < 32)%nat
  /\ getDeterministicRandomBy shortAddress
     = mk NaN (Int 18) NaN (Int 305419896)
  /\ seedZeroFilled shortAddress
     = mk (Int 0) (Int 0) (Int 0) (Int 305419896)
  /\ draws 2 (getDeterministicRandomBy shortAddress)
     <> draws 2 (seedZeroFilled shortAddress).
Proof.
  split; [vm_compute; lia|]. split; [reflexivity|]. split; [reflexivity|].
  vm_compute. discriminate.
Qed.

End SeedFacts.


Unset Implicit Arguments.

(* ================================================================== *)
(** * Further properties *)

(** ** The generator, bit level *)

Module XorshiftBits.

Import Xorshift XorshiftFacts SeedFacts.

Local Open Scope Z_scope.

Lemma wrapI32_idem (n : Z) : wrapI32 (wrapI32 n) = wrapI32 n.
Proof.
  unfold wrapI32.
  replace ((n + two31) mod two32 - two31 + two31)
    with ((n + two31) mod two32) by lia.
  rewrite Z.mod_mod by (unfold two32; lia). reflexivity.
Qed.

Lemma wrapU32_wrapI32 (n : Z) : wrapU32 (wrapI32 n) = wrapU32 n.
Proof.
  unfold wrapU32, wrapI32.
  rewrite Zminus_mod_idemp_l.
  f_equal. lia.
Qed.

(** Two states whose words convert to the same [int32] values. *)
Definition sameBits (g1 g2 : XorShift) : Prop :=
  toInt32 (x g1) = toInt32 (x g2) /\ toInt32 (y g1) = toInt32 (y g2)
  /\ toInt32 (z g1) = toInt32 (z g2) /\ toInt32 (w g1) = toInt32 (w g2).

Lemma toUint32_toInt32 (v : word) : toUint32 v = wrapU32 (toInt32 v).
Proof.
  destruct v as [|n]; [reflexivity|]. simpl. symmetry. apply wrapU32_wrapI32.
Qed.

Lemma nextInt_sameBits (g1 g2 : XorShift) :
  sameBits g1 g2 ->
  fst (nextInt g1) = fst (nextInt g2)
  /\ sameBits (snd (nextInt g1)) (snd (nextInt g2)).
Proof.
  destruct g1 as [x1 y1 z1 w1], g2 as [x2 y2 z2 w2].
  unfold sameBits. cbn [x y z w]. intros (Hx & Hy & Hz & Hw).
  unfold nextInt. cbn [fst snd x y z w].
  rewrite !toUint32_toInt32, Hx, Hw.
  repeat split; assumption.
Qed.

Lemma draws_S (n : nat) (g : XorShift) :
  draws (S n) g = fst (nextInt g) :: draws n (snd (nextInt g)).
Proof. cbn [draws]. destruct (nextInt g). reflexivity. Qed.

(** X1: the numbers a generator yields depend on its four words only through
    their [ToInt32] conversion: states whose words agree after conversion
    ([NaN] and [0], or two integers that differ by a multiple of [2^32])
    yield the same sequence. *)
Theorem draws_sameBits (n : nat) (g1 g2 : XorShift) :
  sameBits g1 g2 -> draws n g1 = draws n g2.
Proof.
  revert g1 g2. induction n as [|n IH]; intros g1 g2 H; [reflexivity|].
  destruct (nextInt_sameBits _ _ H) as [E S].
  rewrite !draws_S, E. f_equal. apply IH. exact S.
Qed.

Definition nanState : XorShift := mk NaN (Int 18) NaN (Int 305419896).
Definition wideState : XorShift :=
  mk (Int 4294967296) (Int 18) (Int 0) (Int (305419896 - 4294967296)).

Lemma draws_sameBits_witness :
  sameBits nanState wideState /\ draws 5 nanState = draws 5 wideState.
Proof.
  assert (S : sameBits nanState wideState) by (repeat split; reflexivity).
  split; [exact S | exact (@draws_sameBits 5 nanState wideState S)].
Defined.

(** Every word converts to zero. *)
Definition zeroBits (g : XorShift) : Prop :=
  toInt32 (x g) = 0 /\ toInt32 (y g) = 0 /\ toInt32 (z g) = 0
  /\ toInt32 (w g) = 0.

Lemma draws_zero (n : nat) :
  draws n (mk (Int 0) (Int 0) (Int 0) (Int 0)) = repeat 0 n.
Proof.
  induction n as [|n IH]; [reflexivity|].
  change (draws (S n) (mk (Int 0) (Int 0) (Int 0) (Int 0)))
    with (0 :: draws n (mk (Int 0) (Int 0) (Int 0) (Int 0))).
  rewrite IH. reflexivity.
Qed.

(** X2: a state whose words all convert to zero (all [0] or [NaN], as for
    the empty identifier or an all-zero address) is stuck: every number it
    yields is [0], and hence every [nextIntBet] over a non-empty range
    returns the lower bound. *)
Theorem zero_state_stuck (g : XorShift) :
  zeroBits g ->
  (forall n, draws n g = repeat 0 n)
  /\ (forall from to : Q, (from < to)%Q ->
        (fst (nextIntBet from to g) == from)%Q).
Proof.
  intros H.
  assert (S : sameBits g (mk (Int 0) (Int 0) (Int 0) (Int 0))).
  { destruct H as (Hx & Hy & Hz & Hw). repeat split; assumption. }
  split.
  - intros n. rewrite (draws_sameBits n _ _ S). apply draws_zero.
  - intros from to Hlt.
    assert (Hd : (0 < to - from)%Q) by lra.
    rewrite (nextIntBet_draw g Hd). cbn [fst].
    destruct (nextInt_sameBits _ _ S) as [E _].
    rewrite E.
    change (fst (nextInt (mk (Int 0) (Int 0) (Int 0) (Int 0)))) with 0.
    change (Z.abs 0) with 0.
    unfold jsrem.
    assert (T : Qtrunc (inject_Z 0 / (to - from)) = 0) by reflexivity.
    rewrite T. change (inject_Z 0) with 0%Q. ring.
Qed.

Lemma zero_state_stuck_witness :
  zeroBits (getDeterministicRandomBy EmptyString)
  /\ (2 < 4)%Q
  /\ draws 3 (getDeterministicRandomBy EmptyString) = [0; 0; 0]
  /\ (fst (nextIntBet 2 4 (getDeterministicRandomBy EmptyString)) == 2)%Q.
Proof.
  assert (H : zeroBits (getDeterministicRandomBy EmptyString))
    by (repeat split; reflexivity).
  assert (L : (2 < 4)%Q) by reflexivity.
  split; [exact H|]. split; [exact L|].
  split.
  - exact (proj1 (zero_state_stuck _ H) 3%nat).
  - exact (proj2 (zero_state_stuck _ H) 2%Q 4%Q L).
Defined.

End XorshiftBits.

(** ** Seeding from a well-formed address *)

Module SeedHex.

Import JsString Xorshift SeedFacts.

Local Open Scope Z_scope.
Local Open Scope string_scope.

Lemma length_app (a b : string) :
  String.length (a ++ b) = (String.length a + String.length b)%nat.
Proof. induction a as [|c a IH]; simpl; [reflexivity | now rewrite IH]. Qed.

Lemma drop_app (p s : string) (k : nat) :
  drop (String.length p + k) (p ++ s) = drop k s.
Proof. induction p as [|c p IH]; simpl; [reflexivity | exact IH]. Qed.

Lemma take_app (a b : string) : take (String.length a) (a ++ b) = a.
Proof. induction a as [|c a IH]; simpl; [reflexivity | now rewrite IH]. Qed.

Lemma take_all (a : string) : take (String.length a) a = a.
Proof. induction a as [|c a IH]; simpl; [reflexivity | now rewrite IH]. Qed.

(** [slice] with both indices in range is the plain substring. *)
Lemma slice_inside (a : string) (start end_ : Z) :
  0 <= start <= end_ -> end_ <= Z.of_nat (String.length a) ->
  slice a start end_
    = take (Z.to_nat (end_ - start)) (drop (Z.to_nat start) a).
Proof.
  intros H1 H2. unfold slice, clampIndex.
  destruct (Z.ltb_spec start 0); [lia|].
  destruct (Z.ltb_spec end_ 0); [lia|].
  rewrite !Z.min_l by lia. rewrite Z.max_l by lia. reflexivity.
Qed.

(** The chunk of round [i], for an address of at least 32 characters. *)
Lemma chunk_inside (a : string) (i : Z) :
  0 <= i <= 3 -> (32 <= String.length a)%nat ->
  chunk a i
    = take 8 (drop (String.length a - 32 + Z.to_nat (24 - 8 * i)) a).
Proof.
  intros Hi Hl. unfold chunk. rewrite slice_inside by lia.
  f_equal; [f_equal; lia|]. f_equal. lia.
Qed.

Lemma chunk_prefix (p s : string) (i : Z) :
  0 <= i <= 3 -> String.length s = 32%nat -> chunk (p ++ s) i = chunk s i.
Proof.
  intros Hi Hs.
  rewrite !chunk_inside by (try rewrite length_app; lia).
  rewrite length_app, Hs.
  replace (String.length p + 32 - 32 + Z.to_nat (24 - 8 * i))%nat
    with (String.length p + Z.to_nat (24 - 8 * i))%nat by lia.
  rewrite drop_app. reflexivity.
Qed.

(** X3: only the last 32 characters of the identifier reach the generator:
    whatever precedes them (a ["0x"] prefix, the upper digits of a longer
    address) does not change the state. *)
Theorem getDeterministicRandomBy_last32 (p s : string) :
  String.length s = 32%nat ->
  getDeterministicRandomBy (p ++ s) = getDeterministicRandomBy s.
Proof.
  intros Hs. rewrite !getDeterministicRandomBy_words.
  rewrite !(chunk_prefix p s) by (try lia; exact Hs). reflexivity.
Qed.

Lemma getDeterministicRandomBy_last32_witness :
  String.length "00112233445566778899aabbccddeeff" = 32%nat
  /\ getDeterministicRandomBy
       ("0xdeadbeef" ++ "00112233445566778899aabbccddeeff")
     = getDeterministicRandomBy "00112233445566778899aabbccddeeff".
Proof.
  assert (L : String.length "00112233445566778899aabbccddeeff" = 32%nat)
    by reflexivity.
  split; [exact L|].
  exact (@getDeterministicRandomBy_last32 "0xdeadbeef"
           "00112233445566778899aabbccddeeff" L).
Defined.

(** Strings of hexadecimal digits and their value, most significant digit
    first. *)
Fixpoint allHex (s : string) : bool :=
  match s with
  | EmptyString => true
  | String c s' => isHex c && allHex s'
  end.

Definition digit (c : ascii) : Z :=
  match hexDigit c with Some d => d | None => 0 end.

Fixpoint hexValueFrom (acc : Z) (s : string) : Z :=
  match s with
  | EmptyString => acc
  | String c s' => hexValueFrom (16 * acc + digit c) s'
  end.

Definition hexValue (s : string) : Z := hexValueFrom 0 s.

Lemma digit_range (c : ascii) : 0 <= digit c < 16.
Proof.
  unfold digit, hexDigit.
  repeat match goal with
         | |- context [if ?b then _ else _] => destruct b eqn:?
         end; lia.
Qed.

Lemma hexValueFrom_range (s : string) :
  forall acc, 0 <= acc ->
    acc * 16 ^ Z.of_nat (String.length s) <= hexValueFrom acc s
    < (acc + 1) * 16 ^ Z.of_nat (String.length s).
Proof.
  induction s as [|c s IH]; intros acc Ha.
  - simpl. lia.
  - pose proof (digit_range c) as D.
    cbn [hexValueFrom String.length].
    specialize (IH (16 * acc + digit c) ltac:(lia)).
    rewrite Nat2Z.inj_succ, Z.pow_succ_r by lia.
    set (P := 16 ^ Z.of_nat (String.length s)) in *.
    assert (HP : 0 < P) by (apply Z.pow_pos_nonneg; lia).
    nia.
Qed.

Lemma hexPrefix_allHex (s : string) :
  forall acc seen,
    allHex s = true ->
    hexPrefix s acc seen
      = (hexValueFrom acc s,
         match s with EmptyString => seen | _ => true end).
Proof.
  induction s as [|c s IH]; intros acc seen H; [reflexivity|].
  simpl in H. apply andb_prop in H. destruct H as [Hc Hs].
  cbn [hexPrefix hexValueFrom]. unfold digit, isHex in *.
  destruct (hexDigit c) as [d|]; [|discriminate Hc].
  rewrite (IH _ true Hs). destruct s; reflexivity.
Qed.

Ltac ascii_cases a :=
  destruct a as [[] [] [] [] [] [] [] []].

Lemma hex_not_space (a : ascii) : isHex a = true -> isWhiteSpace a = false.
Proof. ascii_cases a; vm_compute; congruence. Qed.

Lemma stripSign_hex (a : ascii) (r : string) :
  isHex a = true -> stripSign (String a r) = (1, String a r).
Proof.
  ascii_cases a; intros H; try reflexivity; vm_compute in H; discriminate H.
Qed.

Lemma strip0x_hex (a : ascii) (r : string) :
  allHex (String a r) = true -> strip0x (String a r) = String a r.
Proof.
  intros H. simpl in H. apply andb_prop in H. destruct H as [_ Hr].
  destruct r as [|b r]; [ascii_cases a; reflexivity|].
  simpl in Hr. apply andb_prop in Hr. destruct Hr as [Hb _].
  ascii_cases a; try reflexivity.
  ascii_cases b; try reflexivity; vm_compute in Hb; discriminate Hb.
Qed.

(** [parseInt(_, 16)] on a non-empty string of hexadecimal digits. *)
Lemma parseInt16_hex (c : string) :
  allHex c = true -> c <> EmptyString -> parseInt16 c = Some (hexValue c).
Proof.
  intros H Hne. destruct c as [|a r]; [congruence|].
  assert (Ha : isHex a = true).
  { simpl in H. apply andb_prop in H. tauto. }
  unfold parseInt16.
  cbn [trimStart]. rewrite (@hex_not_space a Ha).
  rewrite (@stripSign_hex a r Ha), (@strip0x_hex a r H).
  rewrite (@hexPrefix_allHex _ 0 false H).
  unfold hexValue. rewrite Z.mul_1_l. reflexivity.
Qed.

Lemma take8 (a b : string) :
  String.length a = 8%nat -> take 8 (a ++ b) = a.
Proof. intros L. rewrite <- L. apply take_app. Qed.

Lemma drop8 (a b : string) (k : nat) :
  String.length a = 8%nat -> drop (8 + k) (a ++ b) = drop k b.
Proof. intros L. rewrite <- L. apply drop_app. Qed.

Definition chunk8 (c : string) : Prop :=
  String.length c = 8%nat /\ allHex c = true.

Lemma chunk8_parse (c : string) :
  chunk8 c ->
  ofParse (parseInt16 c) = Int (hexValue c) /\ 0 <= hexValue c < two32.
Proof.
  intros [L H]. split.
  - rewrite parseInt16_hex; [reflexivity | exact H |].
    intros E. rewrite E in L. discriminate L.
  - pose proof (hexValueFrom_range c 0 ltac:(lia)) as R.
    rewrite L in R. unfold hexValue, two32.
    change (16 ^ Z.of_nat 8) with 4294967296 in R. lia.
Qed.

(** X4: for an address that ends in four groups of eight hexadecimal digits,
    whatever comes before them, the state words [x, y, z, w] are the values
    of the four groups in that order, each in [0, 2^32): no word is [NaN]. *)
Theorem getDeterministicRandomBy_hex (p c3 c2 c1 c0 : string) :
  chunk8 c3 -> chunk8 c2 -> chunk8 c1 -> chunk8 c0 ->
  getDeterministicRandomBy (p ++ c3 ++ c2 ++ c1 ++ c0)
    = mk (Int (hexValue c3)) (Int (hexValue c2)) (Int (hexValue c1))
         (Int (hexValue c0))
  /\ 0 <= hexValue c3 < two32 /\ 0 <= hexValue c2 < two32
  /\ 0 <= hexValue c1 < two32 /\ 0 <= hexValue c0 < two32.
Proof.
  intros H3 H2 H1 H0.
  destruct (chunk8_parse _ H3) as [P3 R3], (chunk8_parse _ H2) as [P2 R2],
    (chunk8_parse _ H1) as [P1 R1], (chunk8_parse _ H0) as [P0 R0].
  split; [|tauto].
  destruct H3 as [L3 _], H2 as [L2 _], H1 as [L1 _], H0 as [L0 _].
  assert (L : String.length (c3 ++ c2 ++ c1 ++ c0) = 32%nat).
  { rewrite !length_app. lia. }
  rewrite getDeterministicRandomBy_words.
  rewrite !(chunk_prefix p _) by (try lia; exact L).
  rewrite !chunk_inside by lia. rewrite L.
  change (32 - 32 + Z.to_nat (24 - 8 * 3))%nat with 0%nat.
  change (32 - 32 + Z.to_nat (24 - 8 * 2))%nat with (8 + 0)%nat.
  change (32 - 32 + Z.to_nat (24 - 8 * 1))%nat with (8 + (8 + 0))%nat.
  change (32 - 32 + Z.to_nat (24 - 8 * 0))%nat with (8 + (8 + (8 + 0)))%nat.
  rewrite !(drop8 _ _ _ L3), !(drop8 _ _ _ L2), (drop8 _ _ _ L1).
  cbn [drop].
  rewrite (take8 _ _ L3), (take8 _ _ L2), (take8 _ _ L1).
  rewrite <- L0 at 1. rewrite take_all.
  rewrite P3, P2, P1, P0. reflexivity.
Qed.

Lemma getDeterministicRandomBy_hex_witness :
  chunk8 "00112233" /\ chunk8 "44556677" /\ chunk8 "8899aabb"
  /\ chunk8 "ccddeeff"
  /\ getDeterministicRandomBy
       ("0xdeadbeef" ++ "00112233" ++ "44556677" ++ "8899aabb" ++ "ccddeeff")
     = mk (Int 1122867) (Int 1146447479) (Int 2291772091) (Int 3437096703).
Proof.
  assert (H3 : chunk8 "00112233") by (split; reflexivity).
  assert (H2 : chunk8 "44556677") by (split; reflexivity).
  assert (H1 : chunk8 "8899aabb") by (split; reflexivity).
  assert (H0 : chunk8 "ccddeeff") by (split; reflexivity).
  repeat (split; [assumption|]).
  exact (proj1 (@getDeterministicRandomBy_hex "0xdeadbeef" _ _ _ _
                  H3 H2 H1 H0)).
Defined.

End SeedHex.

(** ** Shapes *)

Module BezierFacts.

Import Bezier.

(** Shapes whose coordinates are equal as rationals. *)
Definition eqPoint (p q : Point) : Prop := px p == px q /\ py p == py q.

Definition eqRect (r s : Rect) : Prop :=
  x1 r == x1 s /\ y1 r == y1 s /\ x2 r == x2 s /\ y2 r == y2 s.

Definition eqLine (p q : BezierLine) : Prop :=
  cp1x p == cp1x q /\ cp1y p == cp1y q /\ cp2x p == cp2x q
  /\ cp2y p == cp2y q /\ lx p == lx q /\ ly p == ly q.

Definition eqFire (f g : BezierFire) : Prop :=
  eqRect (frame f) (frame g) /\ eqPoint (start f) (start g)
  /\ Forall2 eqLine (points f) (points g)
  /\ eqPoint (fireBase f) (fireBase g).

Lemma Forall2_map_l {A B} (R : B -> A -> Prop) (g : A -> B) (l : list A) :
  (forall a, R (g a) a) -> Forall2 R (map g l) l.
Proof. intros H. induction l; simpl; constructor; auto. Qed.

Lemma Forall2_map_map {A B} (R : B -> B -> Prop) (g h : A -> B)
    (l : list A) :
  (forall a, R (g a) (h a)) -> Forall2 R (map g l) (map h l).
Proof. intros H. induction l; simpl; constructor; auto. Qed.

Ltac coords := unfold eqRect, eqPoint, eqLine; cbn; repeat split; ring.

(** X5: [move] composes by adding the offsets, [move(0, 0)] changes nothing,
    and moving back by the opposite offsets restores the shape (all up to
    equality of the coordinates as numbers). *)
Theorem move_compose (f : BezierFire) (a b c d : Q) :
  eqFire (move (move f a b) c d) (move f (a + c) (b + d))
  /\ eqFire (move f 0 0) f
  /\ eqFire (move (move f a b) (- a) (- b)) f.
Proof.
  split; [|split].
  - unfold eqFire, move. cbn [frame start points fireBase].
    rewrite map_map. repeat split; try coords.
    apply Forall2_map_map. intros p. coords.
  - unfold eqFire, move. cbn [frame start points fireBase].
    repeat split; try coords.
    apply Forall2_map_l. intros p. coords.
  - unfold eqFire, move. cbn [frame start points fireBase].
    rewrite map_map. repeat split; try coords.
    apply Forall2_map_l. intros p. coords.
Qed.

(** X6: [scale] about one centre composes by multiplying the factors, the
    factor [1] changes nothing, the factor [0] puts the start point on the
    centre, and a shape scaled about its own base keeps its base. *)
Theorem scale_compose (f : BezierFire) (cx cy k1 k2 : Q) :
  eqFire (scale (scale f cx cy k1) cx cy k2) (scale f cx cy (k1 * k2))
  /\ eqFire (scale f cx cy 1) f
  /\ eqPoint (start (scale f cx cy 0)) (mkPoint cx cy)
  /\ eqPoint
       (fireBase (scale f (px (fireBase f)) (py (fireBase f)) k1))
       (fireBase f).
Proof.
  split; [|split; [|split]].
  - unfold eqFire, scale. cbn [frame start points fireBase].
    rewrite map_map. repeat split; try coords.
    apply Forall2_map_map. intros p. coords.
  - unfold eqFire, scale. cbn [frame start points fireBase].
    repeat split; try coords.
    apply Forall2_map_l. intros p. coords.
  - unfold scale. coords.
  - unfold scale. coords.
Qed.

(** The point lies in the box, sides included. *)
Definition inBox (r : Rect) (p : Point) : Prop :=
  x1 r <= px p /\ px p <= x2 r /\ y1 r <= py p /\ py p <= y2 r.

Lemma convex4 (w0 w1 w2 w3 a0 a1 a2 a3 lo hi : Q) :
  0 <= w0 -> 0 <= w1 -> 0 <= w2 -> 0 <= w3 ->
  w0 + w1 + w2 + w3 == 1 ->
  lo <= a0 <= hi -> lo <= a1 <= hi -> lo <= a2 <= hi -> lo <= a3 <= hi ->
  lo <= a0 * w0 + a1 * w1 + a2 * w2 + a3 * w3 <= hi.
Proof.
  intros W0 W1 W2 W3 S [L0 H0] [L1 H1] [L2 H2] [L3 H3].
  assert (P : forall a w, lo <= a -> 0 <= w -> 0 <= (a - lo) * w).
  { intros a w La Hw. apply Qmult_le_0_compat; lra. }
  assert (N : forall a w, a <= hi -> 0 <= w -> 0 <= (hi - a) * w).
  { intros a w Ha Hw. apply Qmult_le_0_compat; lra. }
  pose proof (P a0 w0 L0 W0). pose proof (P a1 w1 L1 W1).
  pose proof (P a2 w2 L2 W2). pose proof (P a3 w3 L3 W3).
  pose proof (N a0 w0 H0 W0). pose proof (N a1 w1 H1 W1).
  pose proof (N a2 w2 H2 W2). pose proof (N a3 w3 H3 W3).
  assert (E1 : a0 * w0 + a1 * w1 + a2 * w2 + a3 * w3 - lo
               == (a0 - lo) * w0 + (a1 - lo) * w1 + (a2 - lo) * w2
                  + (a3 - lo) * w3 + lo * (w0 + w1 + w2 + w3 - 1)) by ring.
  assert (E2 : hi - (a0 * w0 + a1 * w1 + a2 * w2 + a3 * w3)
               == (hi - a0) * w0 + (hi - a1) * w1 + (hi - a2) * w2
                  + (hi - a3) * w3 - hi * (w0 + w1 + w2 + w3 - 1)) by ring.
  rewrite S in E1, E2. split; lra.
Qed.

Lemma bernstein (t : Q) :
  0 <= t -> t <= 1 ->
  let u := 1 - t in
  0 <= u * u * u /\ 0 <= 3 * (u * u) * t /\ 0 <= 3 * u * (t * t)
  /\ 0 <= t * t * t
  /\ u * u * u + 3 * (u * u) * t + 3 * u * (t * t) + t * t * t == 1.
Proof.
  intros H0 H1 u. assert (Hu : 0 <= u) by (subst u; lra).
  assert (Huu : 0 <= u * u) by (apply Qmult_le_0_compat; assumption).
  assert (Htt : 0 <= t * t) by (apply Qmult_le_0_compat; assumption).
  repeat split.
  - apply Qmult_le_0_compat; assumption.
  - apply Qmult_le_0_compat; [|assumption].
    apply Qmult_le_0_compat; [lra | assumption].
  - apply Qmult_le_0_compat; [|assumption].
    apply Qmult_le_0_compat; [lra | assumption].
  - apply Qmult_le_0_compat; assumption.
  - subst u. ring.
Qed.

Lemma getBezierPoint_in_box (t : Q) (r : Rect) (p0 c1 c2 e : Point) :
  0 <= t -> t <= 1 ->
  inBox r p0 -> inBox r c1 -> inBox r c2 -> inBox r e ->
  inBox r (getBezierPoint t p0 c1 c2 e).
Proof.
  intros H0 H1 (A1 & A2 & A3 & A4) (B1 & B2 & B3 & B4) (C1 & C2 & C3 & C4)
    (D1 & D2 & D3 & D4).
  destruct (bernstein t H0 H1) as (W0 & W1 & W2 & W3 & S). cbv zeta in *.
  pose proof (convex4 _ _ _ _ (px p0) (px c1) (px c2) (px e) (x1 r) (x2 r)
                W0 W1 W2 W3 S (conj A1 A2) (conj B1 B2) (conj C1 C2)
                (conj D1 D2)) as [X1 X2].
  pose proof (convex4 _ _ _ _ (py p0) (py c1) (py c2) (py e) (y1 r) (y2 r)
                W0 W1 W2 W3 S (conj A3 A4) (conj B3 B4) (conj C3 C4)
                (conj D3 D4)) as [Y1 Y2].
  unfold inBox, getBezierPoint. cbn [px py].
  repeat split; lra.
Qed.

(** X7: for a parameter in [0, 1] the point of the cubic lies in every box
    that holds its four control points; at [0] it is the start point and at
    [1] the end point. *)
Theorem getBezierPoint_hull (t : Q) (r : Rect) (p0 c1 c2 e : Point) :
  (0 <= t -> t <= 1 ->
   inBox r p0 -> inBox r c1 -> inBox r c2 -> inBox r e ->
   inBox r (getBezierPoint t p0 c1 c2 e))
  /\ eqPoint (getBezierPoint 0 p0 c1 c2 e) p0
  /\ eqPoint (getBezierPoint 1 p0 c1 c2 e) e.
Proof.
  split; [apply getBezierPoint_in_box|].
  split; unfold eqPoint, getBezierPoint; cbn; split; ring.
Qed.

Lemma getBezierPoint_hull_witness :
  0 <= 1 # 2 /\ (1 # 2) <= 1
  /\ inBox (mkRect 0 0 4 4)
       (getBezierPoint (1 # 2) (mkPoint 0 0) (mkPoint 0 4) (mkPoint 4 4)
          (mkPoint 4 0)).
Proof.
  assert (H0 : 0 <= 1 # 2) by (vm_compute; discriminate).
  assert (H1 : (1 # 2) <= 1) by (vm_compute; discriminate).
  split; [exact H0|]. split; [exact H1|].
  apply (proj1 (getBezierPoint_hull (1 # 2) (mkRect 0 0 4 4) (mkPoint 0 0)
                  (mkPoint 0 4) (mkPoint 4 4) (mkPoint 4 0)) H0 H1);
    unfold inBox; cbn; repeat split; vm_compute; discriminate.
Defined.

End BezierFacts.

(** ** The approximate centroid *)

Module CentroidFacts.

Import Bezier BezierFacts.

(** A map applied to every abscissa and one applied to every ordinate. *)
Definition mapPoint (gx gy : Q -> Q) (p : Point) : Point :=
  mkPoint (gx (px p)) (gy (py p)).

Definition mapLine (gx gy : Q -> Q) (p : BezierLine) : BezierLine :=
  mkLine (gx (cp1x p)) (gy (cp1y p)) (gx (cp2x p)) (gy (cp2y p))
    (gx (lx p)) (gy (ly p)).

Definition affine (g : Q -> Q) (a b : Q) : Prop := forall v, g v == a * v + b.

Section Affine.

Variables gx gy : Q -> Q.
Variables ax bx ay by_ : Q.
Hypothesis Hx : affine gx ax bx.
Hypothesis Hy : affine gy ay by_.

Lemma getBezierPoint_affine (t : Q) (p0 c1 c2 e : Point) :
  px (getBezierPoint t (mapPoint gx gy p0) (mapPoint gx gy c1)
        (mapPoint gx gy c2) (mapPoint gx gy e))
    == ax * px (getBezierPoint t p0 c1 c2 e) + bx
  /\ py (getBezierPoint t (mapPoint gx gy p0) (mapPoint gx gy c1)
          (mapPoint gx gy c2) (mapPoint gx gy e))
     == ay * py (getBezierPoint t p0 c1 c2 e) + by_.
Proof.
  unfold getBezierPoint, mapPoint. cbn [px py].
  rewrite !(Hx _), !(Hy _). split; ring.
Qed.

(** The sums after the images of the segments have been sampled: [m]
    points have gone into [sum] so far. *)
Definition related (m : Q) (sum sum' : Q * Q) : Prop :=
  fst sum' == ax * fst sum + bx * m /\ snd sum' == ay * snd sum + by_ * m.

Lemma sampleSegment_affine (samples : Z) (p0 : Point) (p1 : BezierLine)
    (js : list Z) :
  forall (m : Q) (sum sum' : Q * Q),
    related m sum sum' ->
    related (m + inject_Z (Z.of_nat (List.length js)))
      (sampleSegment samples p0 p1 js sum)
      (sampleSegment samples (mapPoint gx gy p0) (mapLine gx gy p1) js sum').
Proof.
  unfold sampleSegment.
  induction js as [|j js IH]; intros m sum sum' [R1 R2].
  - simpl. unfold related. split; [rewrite R1 | rewrite R2]; ring.
  - cbn [fold_left List.length].
    match goal with
    | |- related _ (fold_left _ _ ?s) (fold_left _ _ ?s') =>
        specialize (IH (m + 1) s s')
    end.
    assert (E : m + inject_Z (Z.of_nat (S (List.length js)))
                == m + 1 + inject_Z (Z.of_nat (List.length js))).
    { rewrite Nat2Z.inj_succ. unfold Z.succ. rewrite inject_Z_plus. ring. }
    unfold related in *. rewrite E. apply IH.
    cbn [fst snd mapLine cp1x cp1y cp2x cp2y lx ly].
    destruct (getBezierPoint_affine
                (inject_Z j / inject_Z (samples - 1)) p0
                (mkPoint (cp1x p1) (cp1y p1)) (mkPoint (cp2x p1) (cp2y p1))
                (mkPoint (lx p1) (ly p1))) as [Bx By].
    unfold mapPoint in Bx, By. cbn [px py] in Bx, By.
    unfold mapPoint. rewrite Bx, By, R1, R2. split; ring.
Qed.

Lemma sampleSegments_affine (samples : Z) (js : list Z)
    (ps : list BezierLine) :
  forall (p0 : Point) (m : Q) (sum sum' : Q * Q),
    related m sum sum' ->
    related
      (m + inject_Z (Z.of_nat (List.length ps))
           * inject_Z (Z.of_nat (List.length js)))
      (sampleSegments samples p0 ps js sum)
      (sampleSegments samples (mapPoint gx gy p0) (map (mapLine gx gy) ps)
         js sum').
Proof.
  induction ps as [|p1 ps IH]; intros p0 m sum sum' R.
  - simpl. destruct R as [R1 R2]. unfold related.
    split; [rewrite R1 | rewrite R2]; ring.
  - cbn [sampleSegments map List.length].
    pose proof (sampleSegment_affine samples p0 p1 js m sum sum' R) as R'.
    specialize (IH (mkPoint (lx p1) (ly p1)) _ _ _ R').
    assert (E : m + inject_Z (Z.of_nat (S (List.length ps)))
                    * inject_Z (Z.of_nat (List.length js))
                == m + inject_Z (Z.of_nat (List.length js))
                   + inject_Z (Z.of_nat (List.length ps))
                     * inject_Z (Z.of_nat (List.length js))).
    { rewrite Nat2Z.inj_succ. unfold Z.succ. rewrite inject_Z_plus. ring. }
    unfold related in *. rewrite E. exact IH.
Qed.

Lemma length_upto (n : Z) : List.length (upto n) = Z.to_nat n.
Proof. unfold upto. rewrite List.length_map, List.length_seq. reflexivity. Qed.

(** The centroid of the image of a shape is the image of its centroid.
    With fewer than two samples the parameter [j / (samples - 1)] is [0 / 0]
    and the code returns [NaN] coordinates, so two samples are asked for. *)
Lemma centroid_affine (f f' : BezierFire) (samples : Z) :
  start f' = mapPoint gx gy (start f) ->
  points f' = map (mapLine gx gy) (points f) ->
  points f <> [] -> (2 <= samples)%Z ->
  px (calculateApproximateCentroid f' samples)
    == ax * px (calculateApproximateCentroid f samples) + bx
  /\ py (calculateApproximateCentroid f' samples)
     == ay * py (calculateApproximateCentroid f samples) + by_.
Proof.
  intros Es Ep Hne Hs. unfold calculateApproximateCentroid.
  rewrite Es, Ep, List.length_map. cbn [px py].
  assert (R0 : related 0 (0, 0) (0, 0)).
  { unfold related. cbn. split; ring. }
  pose proof (sampleSegments_affine samples (upto samples) (points f)
                (start f) 0 (0, 0) (0, 0) R0) as [R1 R2].
  set (n := inject_Z (Z.of_nat (List.length (points f)) * samples)).
  assert (En : 0 + inject_Z (Z.of_nat (List.length (points f)))
                   * inject_Z (Z.of_nat (List.length (upto samples)))
               == n).
  { subst n. rewrite length_upto, Z2Nat.id by lia.
    rewrite inject_Z_mult. ring. }
  assert (Hn : ~ n == 0).
  { subst n. intros H.
    assert (L : (0 < Z.of_nat (List.length (points f)))%Z).
    { destruct (points f); [congruence | simpl; lia]. }
    assert (P : (0 < Z.of_nat (List.length (points f)) * samples)%Z)
      by (apply Z.mul_pos_pos; [assumption | lia]).
    unfold Qeq in H. simpl in H. lia. }
  rewrite En in R1, R2. rewrite R1, R2. split; field; exact Hn.
Qed.

End Affine.

Lemma move_affine (d : Q) : affine (fun v => v + d) 1 d.
Proof. intros v. ring. Qed.

Lemma scale_affine (c k : Q) :
  affine (fun v => c + (v - c) * k) k (c - c * k).
Proof. intros v. ring. Qed.

(** X8: on a shape with at least one segment, sampled at least twice per
    segment, the approximate centroid follows [move]: the centroid of the
    moved shape is the centroid moved by the same offsets. *)
Theorem centroid_move (f : BezierFire) (samples : Z) (dx dy : Q) :
  points f <> [] -> (2 <= samples)%Z ->
  eqPoint (calculateApproximateCentroid (move f dx dy) samples)
    (mkPoint (px (calculateApproximateCentroid f samples) + dx)
             (py (calculateApproximateCentroid f samples) + dy)).
Proof.
  intros Hne Hs.
  destruct (centroid_affine _ _ 1 dx 1 dy (move_affine dx) (move_affine dy)
              f (move f dx dy) samples eq_refl eq_refl Hne Hs) as [Ex Ey].
  unfold eqPoint. cbn [px py]. rewrite Ex, Ey. split; ring.
Qed.

(** X9: likewise, on a shape with at least one segment, sampled at least
    twice per segment, the approximate centroid follows [scale]: the
    centroid of the scaled shape is the centroid scaled about the same
    centre, so a shape scaled about its own centroid keeps its centroid. *)
Theorem centroid_scale (f : BezierFire) (samples : Z) (cx cy k : Q) :
  points f <> [] -> (2 <= samples)%Z ->
  eqPoint (calculateApproximateCentroid (scale f cx cy k) samples)
    (mkPoint (cx + (px (calculateApproximateCentroid f samples) - cx) * k)
             (cy + (py (calculateApproximateCentroid f samples) - cy) * k))
  /\ eqPoint
       (calculateApproximateCentroid
          (scale f (px (calculateApproximateCentroid f samples))
             (py (calculateApproximateCentroid f samples)) k) samples)
       (calculateApproximateCentroid f samples).
Proof.
  intros Hne Hs.
  assert (G : forall cx cy,
             eqPoint (calculateApproximateCentroid (scale f cx cy k) samples)
               (mkPoint
                  (cx + (px (calculateApproximateCentroid f samples) - cx) * k)
                  (cy + (py (calculateApproximateCentroid f samples) - cy)
                        * k))).
  { intros ux uy.
    destruct (centroid_affine _ _ _ _ _ _ (scale_affine ux k)
                (scale_affine uy k) f (scale f ux uy k) samples eq_refl
                eq_refl Hne Hs) as [Ex Ey].
    unfold eqPoint. cbn [px py]. rewrite Ex, Ey. split; ring. }
  split; [apply G|].
  destruct (G (px (calculateApproximateCentroid f samples))
              (py (calculateApproximateCentroid f samples))) as [Ex Ey].
  cbn [px py] in Ex, Ey. unfold eqPoint. rewrite Ex, Ey. split; ring.
Qed.

End CentroidFacts.

(** ** The centroid and the control polygon *)

Module CentroidBox.

Import Bezier BezierFacts CentroidFacts.

Definition lineInBox (r : Rect) (p : BezierLine) : Prop :=
  inBox r (mkPoint (cp1x p) (cp1y p)) /\ inBox r (mkPoint (cp2x p) (cp2y p))
  /\ inBox r (mkPoint (lx p) (ly p)).

(** The start point and every control and end point lie in the box. *)
Definition fireInBox (r : Rect) (f : BezierFire) : Prop :=
  inBox r (start f) /\ Forall (lineInBox r) (points f).

(** [m] points of the box have been added up in [sum]. *)
Definition bounded (r : Rect) (m : Q) (sum : Q * Q) : Prop :=
  x1 r * m <= fst sum /\ fst sum <= x2 r * m
  /\ y1 r * m <= snd sum /\ snd sum <= y2 r * m.

Lemma parameter_range (samples j : Z) :
  (2 <= samples)%Z -> (0 <= j <= samples - 1)%Z ->
  0 <= inject_Z j / inject_Z (samples - 1)
  /\ inject_Z j / inject_Z (samples - 1) <= 1.
Proof.
  intros Hs Hj.
  assert (P : 0 < inject_Z (samples - 1)).
  { change 0 with (inject_Z 0). rewrite <- Zlt_Qlt. lia. }
  assert (J0 : 0 <= inject_Z j).
  { change 0 with (inject_Z 0). rewrite <- Zle_Qle. lia. }
  assert (J1 : inject_Z j <= inject_Z (samples - 1)).
  { rewrite <- Zle_Qle. lia. }
  split.
  - apply Qle_shift_div_l; [exact P|]. lra.
  - apply Qle_shift_div_r; [exact P|]. lra.
Qed.

Lemma sampleSegment_bounded (r : Rect) (samples : Z) (p0 : Point)
    (p1 : BezierLine) (js : list Z) :
  (2 <= samples)%Z -> inBox r p0 -> lineInBox r p1 ->
  Forall (fun j => (0 <= j <= samples - 1)%Z) js ->
  forall (m : Q) (sum : Q * Q),
    bounded r m sum ->
    bounded r (m + inject_Z (Z.of_nat (List.length js)))
      (sampleSegment samples p0 p1 js sum).
Proof.
  intros Hs H0 (H1 & H2 & H3) Hjs. unfold sampleSegment.
  induction Hjs as [|j js Hj _ IH]; intros m sum B.
  - assert (E : m + inject_Z (Z.of_nat (@List.length Z [])) == m)
      by (simpl; ring).
    cbn [fold_left]. unfold bounded in *. rewrite E. exact B.
  - cbn [fold_left List.length].
    match goal with
    | |- bounded _ _ (fold_left _ _ ?s) => specialize (IH (m + 1) s)
    end.
    assert (E : m + inject_Z (Z.of_nat (S (List.length js)))
                == m + 1 + inject_Z (Z.of_nat (List.length js))).
    { rewrite Nat2Z.inj_succ. unfold Z.succ. rewrite inject_Z_plus. ring. }
    unfold bounded in *. rewrite E. apply IH. clear IH.
    destruct (parameter_range samples j Hs Hj) as [T0 T1].
    destruct (getBezierPoint_in_box _ r p0 _ _ _ T0 T1 H0 H1 H2 H3)
      as (G1 & G2 & G3 & G4).
    destruct B as (B1 & B2 & B3 & B4). cbn [fst snd].
    repeat split; lra.
Qed.

Lemma sampleSegments_bounded (r : Rect) (samples : Z) (js : list Z) :
  (2 <= samples)%Z ->
  Forall (fun j => (0 <= j <= samples - 1)%Z) js ->
  forall (ps : list BezierLine) (p0 : Point) (m : Q) (sum : Q * Q),
    inBox r p0 -> Forall (lineInBox r) ps -> bounded r m sum ->
    bounded r
      (m + inject_Z (Z.of_nat (List.length ps))
           * inject_Z (Z.of_nat (List.length js)))
      (sampleSegments samples p0 ps js sum).
Proof.
  intros Hs Hjs. induction ps as [|p1 ps IH]; intros p0 m sum H0 Hps B.
  - assert (E : m + inject_Z (Z.of_nat (@List.length BezierLine []))
                    * inject_Z (Z.of_nat (List.length js)) == m)
      by (simpl; ring).
    cbn [sampleSegments]. unfold bounded in *. rewrite E. exact B.
  - inversion Hps as [|? ? H1 Hps']; subst.
    cbn [sampleSegments List.length].
    pose proof (sampleSegment_bounded r samples p0 p1 js Hs H0 H1 Hjs m sum B)
      as B'.
    specialize (IH (mkPoint (lx p1) (ly p1)) _ _ (proj2 (proj2 H1)) Hps' B').
    assert (E : m + inject_Z (Z.of_nat (S (List.length ps)))
                    * inject_Z (Z.of_nat (List.length js))
                == m + inject_Z (Z.of_nat (List.length js))
                   + inject_Z (Z.of_nat (List.length ps))
                     * inject_Z (Z.of_nat (List.length js))).
    { rewrite Nat2Z.inj_succ. unfold Z.succ. rewrite inject_Z_plus. ring. }
    unfold bounded in *. rewrite E. exact IH.
Qed.

Lemma upto_range (samples : Z) :
  Forall (fun j => (0 <= j <= samples - 1)%Z) (upto samples).
Proof.
  unfold upto. apply Forall_forall. intros j Hj.
  apply in_map_iff in Hj. destruct Hj as (k & <- & Hk).
  apply in_seq in Hk. lia.
Qed.

(** X10: with at least two samples per segment, the approximate centroid of
    a shape with at least one segment lies in every box that holds the
    start point and all control and end points of the shape. *)
Theorem centroid_in_box (r : Rect) (f : BezierFire) (samples : Z) :
  fireInBox r f -> points f <> [] -> (2 <= samples)%Z ->
  inBox r (calculateApproximateCentroid f samples).
Proof.
  intros [H0 Hps] Hne Hs. unfold calculateApproximateCentroid.
  assert (B0 : bounded r 0 (0, 0)).
  { unfold bounded. cbn. repeat split; lra. }
  pose proof (sampleSegments_bounded r samples (upto samples) Hs
                (upto_range samples) (points f) (start f) 0 (0, 0) H0 Hps B0)
    as (B1 & B2 & B3 & B4).
  set (n := inject_Z (Z.of_nat (List.length (points f)) * samples)).
  assert (En : 0 + inject_Z (Z.of_nat (List.length (points f)))
                   * inject_Z (Z.of_nat (List.length (upto samples)))
               == n).
  { subst n. rewrite length_upto, Z2Nat.id by lia.
    rewrite inject_Z_mult. ring. }
  assert (Hn : 0 < n).
  { subst n. change 0 with (inject_Z 0). rewrite <- Zlt_Qlt.
    apply Z.mul_pos_pos; [|lia].
    destruct (points f); [congruence | simpl; lia]. }
  rewrite En in B1, B2, B3, B4.
  unfold inBox. cbn [px py].
  repeat split.
  - apply Qle_shift_div_l; assumption.
  - apply Qle_shift_div_r; assumption.
  - apply Qle_shift_div_l; assumption.
  - apply Qle_shift_div_r; assumption.
Qed.

Import Render.

Ltac decideQ := vm_compute; discriminate.

Lemma seedFire_segments : points seedFire <> [].
Proof. discriminate. Qed.

Lemma centroid_move_witness :
  points seedFire <> [] /\ (2 <= 10)%Z
  /\ eqPoint (calculateApproximateCentroid (move seedFire 5 7) 10)
       (mkPoint (px (calculateApproximateCentroid seedFire 10) + 5)
                (py (calculateApproximateCentroid seedFire 10) + 7)).
Proof.
  assert (S : (2 <= 10)%Z) by lia.
  split; [exact seedFire_segments|]. split; [exact S|].
  exact (centroid_move seedFire 10 5 7 seedFire_segments S).
Defined.

Lemma centroid_scale_witness :
  points seedFire <> [] /\ (2 <= 10)%Z
  /\ eqPoint
       (calculateApproximateCentroid
          (scale seedFire (px (calculateApproximateCentroid seedFire 10))
             (py (calculateApproximateCentroid seedFire 10)) (93 # 100)) 10)
       (calculateApproximateCentroid seedFire 10).
Proof.
  assert (S : (2 <= 10)%Z) by lia.
  split; [exact seedFire_segments|]. split; [exact S|].
  exact (proj2 (centroid_scale seedFire 10 0 0 (93 # 100) seedFire_segments
                  S)).
Defined.

(** The box of the control points of the seed shape; it is larger than its
    frame. *)
Definition seedBox : Rect := mkRect 110 70 406 530.

Lemma seedFire_in_box : fireInBox seedBox seedFire.
Proof.
  unfold fireInBox, lineInBox, inBox. split.
  - cbn. repeat split; decideQ.
  - repeat constructor; cbn; decideQ.
Qed.

Lemma centroid_in_box_witness :
  fireInBox seedBox seedFire /\ points seedFire <> [] /\ (2 <= 10)%Z
  /\ inBox seedBox (calculateApproximateCentroid seedFire 10).
Proof.
  assert (S : (2 <= 10)%Z) by lia.
  split; [exact seedFire_in_box|]. split; [exact seedFire_segments|].
  split; [exact S|].
  exact (centroid_in_box seedBox seedFire 10 seedFire_in_box
           seedFire_segments S).
Defined.

End CentroidBox.

(** ** Placement *)

Module PlacementFacts.

Import Xorshift XorshiftFacts Bezier Projection Generator GeneratorFacts.

(** X11: the bar radius chosen in [nextTransform] is an integer; when the
    frame is wider than [51] it is at least [25] and the bar, twice the
    radius, is shorter than the frame is wide; when the frame is not wider
    than [51] the radius is [0]. *)
Theorem chooseBar_radius (this : ProjectionGenerator) (g : XorShift) :
  let radius := fst (fst (chooseBar this g)) in
  let frameWidth := x2 (frame (seed this)) - x1 (frame (seed this)) in
  (exists k : Z, radius == inject_Z k)
  /\ (51 < frameWidth -> 25 <= radius /\ 2 * radius < frameWidth)
  /\ (frameWidth <= 51 -> radius == 0).
Proof.
  pose proof (chooseBar_unfold this g) as E. cbv zeta in E.
  intros radius frameWidth. subst radius. rewrite E. clear E.
  cbn [fst snd]. fold frameWidth. unfold minWidth.
  set (n := fst (nextIntBet 51 frameWidth g)).
  assert (R : inject_Z (Qfloor (n / 2)) * 2 / 2 == inject_Z (Qfloor (n / 2)))
    by field.
  split; [exists (Qfloor (n / 2)); exact R|]. rewrite R. split.
  - intros H. destruct (nextIntBet_bounds g H) as [B1 B2]. fold n in B1, B2.
    split.
    + assert (L : (25 <= Qfloor (n / 2))%Z).
      { change 25%Z with (Qfloor (inject_Z 25)).
        apply Qfloor_resp_le. change (inject_Z 25) with 25.
        apply Qle_shift_div_l; lra. }
      change 25 with (inject_Z 25). rewrite <- Zle_Qle. exact L.
    + pose proof (Qfloor_le (n / 2)) as F.
      assert (D : n / 2 * 2 == n) by field. lra.
  - intros H. subst n.
    rewrite (@nextIntBet_empty 51 frameWidth g) by lra. reflexivity.
Qed.

(** A generator on a frame 40 wide. *)
Definition narrow : ProjectionGenerator :=
  createBy (mkFire (mkRect 10 10 50 90) (mkPoint 10 10) [] (mkPoint 30 90))
    512.

Lemma chooseBar_radius_witness :
  51 < x2 (frame (seed shipped)) - x1 (frame (seed shipped))
  /\ x2 (frame (seed narrow)) - x1 (frame (seed narrow)) <= 51
  /\ 25 <= fst (fst (chooseBar shipped sampleState))
  /\ 2 * fst (fst (chooseBar shipped sampleState))
     < x2 (frame (seed shipped)) - x1 (frame (seed shipped))
  /\ fst (fst (chooseBar narrow sampleState)) == 0.
Proof.
  assert (H : 51 < x2 (frame (seed shipped)) - x1 (frame (seed shipped)))
    by (vm_compute; reflexivity).
  assert (N : x2 (frame (seed narrow)) - x1 (frame (seed narrow)) <= 51)
    by (vm_compute; discriminate).
  split; [exact H|]. split; [exact N|].
  destruct (proj1 (proj2 (chooseBar_radius shipped sampleState)) H) as [A B].
  split; [exact A|]. split; [exact B|].
  exact (proj2 (proj2 (chooseBar_radius narrow sampleState)) N).
Defined.

(** The left/right draw never selects the flip. *)
Lemma determineBarAngleRad_pick (PI startAngle endAngle : Q) (g : XorShift) :
  determineBarAngleRad PI startAngle endAngle g
    = pickAngle PI startAngle endAngle (snd (nextInt g)).
Proof.
  destruct (nextIntBet_0_1 g) as [E S].
  unfold determineBarAngleRad, bind.
  destruct (nextIntBet 0 1 g) as [lr g1]. cbn [fst snd] in E, S. subst g1.
  destruct (pickAngle PI startAngle endAngle (snd (nextInt g))) as [a g2].
  destruct (Qeq_bool lr 1) eqn:B; [|reflexivity].
  apply Qeq_bool_eq in B. rewrite E in B. discriminate B.
Qed.

(** X12: with [PI] positive, the angle [determineBarAngleRad] returns lies
    in [startAngle, endAngle) when that range is not empty, and is
    [startAngle] when it is empty. *)
Theorem determineBarAngleRad_range (PI startAngle endAngle : Q)
    (g : XorShift) :
  0 < PI ->
  (startAngle < endAngle ->
   startAngle <= fst (determineBarAngleRad PI startAngle endAngle g)
   /\ fst (determineBarAngleRad PI startAngle endAngle g) < endAngle)
  /\ (endAngle <= startAngle ->
      fst (determineBarAngleRad PI startAngle endAngle g) == startAngle).
Proof.
  intros HPI. rewrite determineBarAngleRad_pick.
  unfold pickAngle, bind, ret.
  set (g1 := snd (nextInt g)).
  set (angleWidth := (endAngle - startAngle) * 180 / PI).
  assert (W : angleWidth * PI == (endAngle - startAngle) * 180).
  { subst angleWidth. field. lra. }
  clearbody angleWidth g1.
  split.
  - intros H.
    assert (Hw : 0 < angleWidth).
    { apply (Qmult_lt_r _ _ PI HPI). lra. }
    destruct (nextIntBet_bounds g1 Hw) as [B1 B2].
    destruct (nextIntBet 0 angleWidth g1) as [n g2]. cbn [fst] in *.
    assert (P1 : 0 <= n * PI) by (apply Qmult_le_0_compat; lra).
    assert (P2 : n * PI < angleWidth * PI)
      by (apply Qmult_lt_compat_r; assumption).
    set (m := n * PI) in *.
    assert (D : m / 180 * 180 == m) by field.
    split; lra.
  - intros H.
    assert (Hw : angleWidth - 0 <= 0).
    { assert (Z0 : angleWidth <= 0); [|lra].
      apply (Qmult_le_r _ _ PI HPI). lra. }
    rewrite (nextIntBet_empty g1 Hw). cbn [fst]. field.
Qed.

Lemma determineBarAngleRad_range_witness :
  0 < 22 # 7 /\ 0 < 1 /\ 1 <= 2
  /\ 0 <= fst (determineBarAngleRad (22 # 7) 0 1 sampleState)
  /\ fst (determineBarAngleRad (22 # 7) 0 1 sampleState) < 1
  /\ fst (determineBarAngleRad (22 # 7) 2 1 sampleState) == 2.
Proof.
  assert (H1 : 0 < 22 # 7) by reflexivity.
  assert (H2 : 0 < 1) by reflexivity.
  assert (H3 : 1 <= 2) by (vm_compute; discriminate).
  split; [exact H1|]. split; [exact H2|]. split; [exact H3|].
  destruct (proj1 (determineBarAngleRad_range (22 # 7) 0 1 sampleState H1) H2)
    as [A B].
  split; [exact A|]. split; [exact B|].
  exact (proj2 (determineBarAngleRad_range (22 # 7) 2 1 sampleState H1) H3).
Defined.

(** X13: [rotate] leaves the centre where it is, and when the cosine and
    sine it is given satisfy [cos^2 + sin^2 = 1] at the angle, it keeps the
    squared distance of every point to the centre. *)
Theorem rotate_distance (cos sin : Q -> Q) (centerX centerY radian : Q)
    (point : Point) :
  BezierFacts.eqPoint
    (rotate cos sin centerX centerY (mkPoint centerX centerY) radian)
    (mkPoint centerX centerY)
  /\ (cos radian * cos radian + sin radian * sin radian == 1 ->
      let q := rotate cos sin centerX centerY point radian in
      (px q - centerX) * (px q - centerX) + (py q - centerY) * (py q - centerY)
      == (px point - centerX) * (px point - centerX)
         + (py point - centerY) * (py point - centerY)).
Proof.
  split.
  - unfold BezierFacts.eqPoint, rotate. cbn [px py]. split; ring.
  - intros H q. subst q. unfold rotate. cbn [px py].
    set (c := cos radian) in *. set (s := sin radian) in *.
    set (dx := px point - centerX). set (dy := py point - centerY).
    assert (E : (centerX + dx * c - dy * s - centerX)
                * (centerX + dx * c - dy * s - centerX)
                + (centerY + dx * s + dy * c - centerY)
                  * (centerY + dx * s + dy * c - centerY)
                == (dx * dx + dy * dy) * (c * c + s * s)) by ring.
    rewrite E, H. ring.
Qed.

Lemma rotate_distance_witness :
  (3 # 5) * (3 # 5) + (4 # 5) * (4 # 5) == 1
  /\ (px (rotate (fun _ => 3 # 5) (fun _ => 4 # 5) 10 20 (mkPoint 15 20) 1)
      - 10)
     * (px (rotate (fun _ => 3 # 5) (fun _ => 4 # 5) 10 20 (mkPoint 15 20) 1)
        - 10)
     + (py (rotate (fun _ => 3 # 5) (fun _ => 4 # 5) 10 20 (mkPoint 15 20) 1)
        - 20)
       * (py (rotate (fun _ => 3 # 5) (fun _ => 4 # 5) 10 20 (mkPoint 15 20)
                1) - 20)
     == (15 - 10) * (15 - 10) + (20 - 20) * (20 - 20).
Proof.
  assert (H : (3 # 5) * (3 # 5) + (4 # 5) * (4 # 5) == 1) by reflexivity.
  split; [exact H|].
  exact (proj2 (rotate_distance (fun _ => 3 # 5) (fun _ => 4 # 5) 10 20 1
                  (mkPoint 15 20)) H).
Defined.

(** X14: the template [nextTransform] solves: its source is the seed frame
    (top left, top right, bottom right, bottom left), the two bottom corners
    are sent to themselves, and the two top corners are sent to the ends of
    a bar whose middle is the chosen centre; the matrix is the one the
    solver gives for that template. *)
Theorem nextTransform_template (atan : Quotient -> Q)
    (cos sin : Q -> Q) (PI : Q) (this : ProjectionGenerator)
    (g : XorShift) :
  let t := fst (nextTransform atan cos sin PI this g) in
  let mid := snd (fst (chooseBar this g)) in
  let f := frame (seed this) in
  src (template t)
    = mkQuad (mkPoint (x1 f) (y1 f)) (mkPoint (x2 f) (y1 f))
        (mkPoint (x2 f) (y2 f)) (mkPoint (x1 f) (y2 f))
  /\ c2 (dest (template t)) = c2 (src (template t))
  /\ c3 (dest (template t)) = c3 (src (template t))
  /\ px (c0 (dest (template t))) + px (c1 (dest (template t))) == 2 * px mid
  /\ py (c0 (dest (template t))) + py (c1 (dest (template t))) == 2 * py mid
  /\ mat t = calcProjectionMatrix (src (template t)) (dest (template t))
  /\ ((forall r, cos r * cos r + sin r * sin r == 1) ->
      let radius := fst (fst (chooseBar this g)) in
      let dx := px (c1 (dest (template t))) - px (c0 (dest (template t))) in
      let dy := py (c1 (dest (template t))) - py (c0 (dest (template t))) in
      dx * dx + dy * dy == (2 * radius) * (2 * radius)).
Proof.
  unfold nextTransform, bind, ret.
  destruct (chooseBar this g) as [[radius mid] g1].
  destruct (calcBarAngleRange atan PI this (px mid) (py mid))
    as [startAngle endAngle].
  destruct (determineBarAngleRad PI startAngle endAngle g1) as [a g2].
  cbn [fst snd]. unfold createTransformBy, rotate.
  cbn [template mat src dest c0 c1 c2 c3 px py].
  repeat split; try ring.
  intros H. cbv zeta. specialize (H a).
  set (c := cos a) in *. set (s := sin a) in *.
  assert (E : (px mid + (px mid + radius - px mid) * c
               - (py mid - py mid) * s
               - (px mid + (px mid - radius - px mid) * c
                  - (py mid - py mid) * s))
              * (px mid + (px mid + radius - px mid) * c
                 - (py mid - py mid) * s
                 - (px mid + (px mid - radius - px mid) * c
                    - (py mid - py mid) * s))
              + (py mid + (px mid + radius - px mid) * s
                 + (py mid - py mid) * c
                 - (py mid + (px mid - radius - px mid) * s
                    + (py mid - py mid) * c))
                * (py mid + (px mid + radius - px mid) * s
                   + (py mid - py mid) * c
                   - (py mid + (px mid - radius - px mid) * s
                      + (py mid - py mid) * c))
              == (2 * radius) * (2 * radius) * (c * c + s * s)) by ring.
  rewrite E, H. ring.
Qed.

Lemma nextTransform_template_witness :
  (forall r : Q, (3 # 5) * (3 # 5) + (4 # 5) * (4 # 5) == 1)
  /\ (px (c1 (dest (template
         (fst (nextTransform (fun _ => 0) (fun _ => 3 # 5) (fun _ => 4 # 5)
                 (22 # 7) shipped sampleState)))))
      - px (c0 (dest (template
         (fst (nextTransform (fun _ => 0) (fun _ => 3 # 5) (fun _ => 4 # 5)
                 (22 # 7) shipped sampleState))))))
     * (px (c1 (dest (template
         (fst (nextTransform (fun _ => 0) (fun _ => 3 # 5) (fun _ => 4 # 5)
                 (22 # 7) shipped sampleState)))))
        - px (c0 (dest (template
         (fst (nextTransform (fun _ => 0) (fun _ => 3 # 5) (fun _ => 4 # 5)
                 (22 # 7) shipped sampleState))))))
     + (py (c1 (dest (template
         (fst (nextTransform (fun _ => 0) (fun _ => 3 # 5) (fun _ => 4 # 5)
                 (22 # 7) shipped sampleState)))))
        - py (c0 (dest (template
         (fst (nextTransform (fun _ => 0) (fun _ => 3 # 5) (fun _ => 4 # 5)
                 (22 # 7) shipped sampleState))))))
       * (py (c1 (dest (template
         (fst (nextTransform (fun _ => 0) (fun _ => 3 # 5) (fun _ => 4 # 5)
                 (22 # 7) shipped sampleState)))))
          - py (c0 (dest (template
         (fst (nextTransform (fun _ => 0) (fun _ => 3 # 5) (fun _ => 4 # 5)
                 (22 # 7) shipped sampleState))))))
     == (2 * fst (fst (chooseBar shipped sampleState)))
        * (2 * fst (fst (chooseBar shipped sampleState))).
Proof.
  assert (H : forall r : Q, (3 # 5) * (3 # 5) + (4 # 5) * (4 # 5) == 1)
    by (intros r; reflexivity).
  split; [exact H|].
  exact (proj2 (proj2 (proj2 (proj2 (proj2 (proj2
           (nextTransform_template (fun _ => 0) (fun _ => 3 # 5)
              (fun _ => 4 # 5) (22 # 7) shipped sampleState)))))) H).
Defined.

End PlacementFacts.

(** ** The solver on arbitrary corners *)

Module SolverFacts.

Import Bezier Projection ProjectionFacts.

Lemma Zfix_not_zero (v : Q) : ~ Zfix v == 0.
Proof.
  unfold Zfix. destruct (Qeq_bool v 0) eqn:B.
  - intros H. discriminate H.
  - intros H. apply Qeq_bool_iff in H. congruence.
Qed.

Lemma Zfix_idem (v : Q) : Zfix (Zfix v) = Zfix v.
Proof. apply Zfix_nonzero. apply Zfix_not_zero. Qed.

Lemma fixQuad_idem (q : Quad) : fixQuad (fixQuad q) = fixQuad q.
Proof.
  unfold fixQuad, fixPoint. cbn [c0 c1 c2 c3 px py].
  rewrite !Zfix_idem. reflexivity.
Qed.

(** X15: the solver never works on a zero coordinate: the replacement [Z]
    never returns zero, a second replacement changes nothing, and the
    matrix solved for two quadrilaterals is the matrix solved for the
    quadrilaterals with [0.5] in place of every zero coordinate. *)
Theorem calcProjectionMatrix_replaced (s d : Quad) (v : Q) :
  ~ Zfix v == 0
  /\ Zfix (Zfix v) = Zfix v
  /\ calcProjectionMatrix s d = calcProjectionMatrix (fixQuad s) (fixQuad d).
Proof.
  split; [apply Zfix_not_zero|]. split; [apply Zfix_idem|].
  rewrite !calcProjectionMatrix_params.
  unfold systemX, systemY. rewrite !fixQuad_idem. reflexivity.
Qed.

Ltac fields :=
  cbn [m0 m1 m2 m3 m4 m5 m6 m7 m8 m9 m10 m11 m12 m13 m14 m15] in *.

(** X16: whatever the corners are, zero coordinates included: when the two
    4x4 systems and the determinant of the translation terms are not
    singular and the divisor of [transform] is not zero at the replaced
    source corners, the transform solved from [A] to [B] sends each corner
    of [A], with [0.5] for a zero coordinate, to the corresponding corner of
    [B], with [0.5] for a zero coordinate. *)
Theorem createTransformBy_replaced_corners (A B : Quad) :
  ~ determinant (systemX A B) == 0 ->
  ~ determinant (systemY A B) == 0 ->
  ~ translationDet A B == 0 ->
  let t := createTransformBy (mkTemplate A B) in
  ~ divisor t (px (c0 (fixQuad A))) (py (c0 (fixQuad A))) == 0 ->
  ~ divisor t (px (c1 (fixQuad A))) (py (c1 (fixQuad A))) == 0 ->
  ~ divisor t (px (c2 (fixQuad A))) (py (c2 (fixQuad A))) == 0 ->
  ~ divisor t (px (c3 (fixQuad A))) (py (c3 (fixQuad A))) == 0 ->
  maps t (c0 (fixQuad A)) (c0 (fixQuad B))
  /\ maps t (c1 (fixQuad A)) (c1 (fixQuad B))
  /\ maps t (c2 (fixQuad A)) (c2 (fixQuad B))
  /\ maps t (c3 (fixQuad A)) (c3 (fixQuad B)).
Proof.
  intros DX DY DT t.
  unfold maps, transform, divisor. subst t.
  unfold createTransformBy. cbn [mat template src dest].
  rewrite calcProjectionMatrix_params.
  unfold translationDet in DT.
  pose proof (@mulv_invert (systemX A B)
                (px (c0 (fixQuad B)), px (c1 (fixQuad B)),
                 px (c2 (fixQuad B)), px (c3 (fixQuad B))) DX) as SX.
  pose proof (@mulv_invert (systemX A B) (1, 1, 1, 1) DX) as SC.
  pose proof (@mulv_invert (systemY A B)
                (py (c0 (fixQuad B)), py (c1 (fixQuad B)),
                 py (c2 (fixQuad B)), py (c3 (fixQuad B))) DY) as SY.
  pose proof (@mulv_invert (systemY A B) (1, 1, 1, 1) DY) as SF.
  set (tx := invert (systemX A B)) in *.
  set (ty := invert (systemY A B)) in *.
  unfold systemX, systemY in SX, SC, SY, SF.
  clearbody tx ty.
  destruct (fixQuad A) as [[X1 Y1] [X2 Y2] [X3 Y3] [X4 Y4]].
  destruct (fixQuad B) as [[x1 y1] [x2 y2] [x3 y3] [x4 y4]].
  unfold mulv, veq, system, fromValues in SX, SC, SY, SF.
  cbn [px py c0 c1 c2 c3] in *. fields.
  rewrite !ones in SC, SF.
  unfold params. cbn [px py c0 c1 c2 c3]. cbv zeta.
  destruct (Qeq_bool _ 0) eqn:B0.
  { apply Qeq_bool_eq in B0. contradiction. }
  clear B0.
  destruct (@translation_terms
              (m8 tx * x1 + m9 tx * x2 + m10 tx * x3 + m11 tx * x4)
              (m12 tx * x1 + m13 tx * x2 + m14 tx * x3 + m15 tx * x4)
              (m8 tx + m9 tx + m10 tx + m11 tx)
              (m12 tx + m13 tx + m14 tx + m15 tx)
              (m8 ty * y1 + m9 ty * y2 + m10 ty * y3 + m11 ty * y4)
              (m12 ty * y1 + m13 ty * y2 + m14 ty * y3 + m15 ty * y4)
              (m8 ty + m9 ty + m10 ty + m11 ty)
              (m12 ty + m13 ty + m14 ty + m15 ty) DT) as [Hg Hh].
  cbv zeta in Hg, Hh.
  cbn [p0 p1 p2 p3 p4 p5 p6 p7 p8].
  destruct SX as (SX1 & SX2 & SX3 & SX4).
  destruct SC as (SC1 & SC2 & SC3 & SC4).
  destruct SY as (SY1 & SY2 & SY3 & SY4).
  destruct SF as (SF1 & SF2 & SF3 & SF4).
  intros Z1 Z2 Z3 Z4.
  repeat split.
  - exact (corner_x SX1 SC1 Z1).
  - exact (corner_y SY1 SF1 Hg Hh Z1).
  - exact (corner_x SX2 SC2 Z2).
  - exact (corner_y SY2 SF2 Hg Hh Z2).
  - exact (corner_x SX3 SC3 Z3).
  - exact (corner_y SY3 SF3 Hg Hh Z3).
  - exact (corner_x SX4 SC4 Z4).
  - exact (corner_y SY4 SF4 Hg Hh Z4).
Qed.

Lemma createTransformBy_replaced_corners_witness :
  ~ determinant (systemX unitSquare shifted) == 0
  /\ ~ determinant (systemY unitSquare shifted) == 0
  /\ ~ translationDet unitSquare shifted == 0
  /\ maps (createTransformBy (mkTemplate unitSquare shifted))
       (mkPoint (1 # 2) (1 # 2)) (mkPoint 1 1).
Proof.
  assert (DX : ~ determinant (systemX unitSquare shifted) == 0) by nonzero.
  assert (DY : ~ determinant (systemY unitSquare shifted) == 0) by nonzero.
  assert (DT : ~ translationDet unitSquare shifted == 0) by nonzero.
  pose proof (createTransformBy_replaced_corners unitSquare shifted DX DY DT)
    as R.
  cbv zeta in R.
  assert (Z0 : ~ divisor (createTransformBy (mkTemplate unitSquare shifted))
                   (px (c0 (fixQuad unitSquare)))
                   (py (c0 (fixQuad unitSquare))) == 0) by nonzero.
  assert (Z1 : ~ divisor (createTransformBy (mkTemplate unitSquare shifted))
                   (px (c1 (fixQuad unitSquare)))
                   (py (c1 (fixQuad unitSquare))) == 0) by nonzero.
  assert (Z2 : ~ divisor (createTransformBy (mkTemplate unitSquare shifted))
                   (px (c2 (fixQuad unitSquare)))
                   (py (c2 (fixQuad unitSquare))) == 0) by nonzero.
  assert (Z3 : ~ divisor (createTransformBy (mkTemplate unitSquare shifted))
                   (px (c3 (fixQuad unitSquare)))
                   (py (c3 (fixQuad unitSquare))) == 0) by nonzero.
  destruct (R Z0 Z1 Z2 Z3) as (M0 & _).
  repeat (split; [assumption|]). exact M0.
Defined.

End SolverFacts.

(** ** Tiers and palettes, further *)

Module TierMore.

Import Tier TierFacts.

Local Open Scope Z_scope.

Lemma filter_length_mono {A} (p q : A -> bool) (l : list A) :
  (forall a, p a = true -> q a = true) ->
  (List.length (filter p l) <= List.length (filter q l))%nat.
Proof.
  intros H. induction l as [|a l IH]; simpl; [lia|].
  destruct (p a) eqn:P.
  - rewrite (H a P). simpl. lia.
  - destruct (q a); simpl; lia.
Qed.

(** X17: the tier never goes down when the counter goes up. *)
Theorem checkTierOf_monotone (a b : Z) :
  a <= b -> checkTierOf a <= checkTierOf b.
Proof.
  intros H. rewrite !checkTierOf_count.
  assert (L : (List.length (reached a tierBoundaries)
               <= List.length (reached b tierBoundaries))%nat).
  { apply filter_length_mono. intros x Hx.
    apply Z.leb_le in Hx. apply Z.leb_le. lia. }
  lia.
Qed.

Lemma checkTierOf_monotone_witness :
  99999 <= 100000 /\ checkTierOf 99999 <= checkTierOf 100000.
Proof.
  assert (H : 99999 <= 100000) by lia.
  split; [exact H | exact (checkTierOf_monotone 99999 100000 H)].
Defined.

(** X18: the palette table answers exactly the tiers 1 to 8, any other
    number gives [undefined]; and no two tiers share a palette. *)
Theorem getTieredFireColor_domain (tier : Z) :
  (getTieredFireColor tier = None <-> tier < 1 \/ 8 < tier)
  /\ (forall other,
        getTieredFireColor tier <> None ->
        getTieredFireColor tier = getTieredFireColor other -> tier = other).
Proof.
  assert (D : forall t, getTieredFireColor t = None <-> t < 1 \/ 8 < t).
  { intros t. unfold getTieredFireColor, index.
    destruct (Z.ltb_spec (t - 1) 0) as [H | H]; [split; [lia | reflexivity]|].
    rewrite nth_error_None. change (List.length tierFireColor) with 8%nat.
    lia. }
  split; [apply D|].
  intros other Hsome E.
  assert (R1 : 1 <= tier <= 8).
  { destruct (Z_lt_dec tier 1); [exfalso; apply Hsome, D; lia|].
    destruct (Z_lt_dec 8 tier); [exfalso; apply Hsome, D; lia|]. lia. }
  assert (R2 : 1 <= other <= 8).
  { rewrite E in Hsome.
    destruct (Z_lt_dec other 1); [exfalso; apply Hsome, D; lia|].
    destruct (Z_lt_dec 8 other); [exfalso; apply Hsome, D; lia|]. lia. }
  assert (C1 : tier = 1 \/ tier = 2 \/ tier = 3 \/ tier = 4 \/ tier = 5
               \/ tier = 6 \/ tier = 7 \/ tier = 8) by lia.
  assert (C2 : other = 1 \/ other = 2 \/ other = 3 \/ other = 4 \/ other = 5
               \/ other = 6 \/ other = 7 \/ other = 8) by lia.
  repeat (destruct C1 as [C1 | C1]); subst tier;
    repeat (destruct C2 as [C2 | C2]); subst other;
    try reflexivity; vm_compute in E; discriminate E.
Qed.

Lemma getTieredFireColor_domain_witness :
  getTieredFireColor 3 <> None
  /\ getTieredFireColor 3 = getTieredFireColor (checkTierOf 100000)
  /\ 3 = checkTierOf 100000.
Proof.
  assert (H : getTieredFireColor 3 <> None) by (vm_compute; discriminate).
  assert (E : getTieredFireColor 3 = getTieredFireColor (checkTierOf 100000))
    by reflexivity.
  split; [exact H|]. split; [exact E|].
  exact (proj2 (getTieredFireColor_domain 3) (checkTierOf 100000) H E).
Defined.

End TierMore.

(** ** The rendered image *)

Module RenderMore.

Import Xorshift XorshiftFacts Tier TierFacts Bezier Projection Generator.
Import Render RenderFacts BezierFacts.

(** X19: aligning puts the base of an instance on the vertical line through
    the base of the first instance and leaves its height alone; the first
    instance aligned with itself is unchanged; aligning twice is aligning
    once. *)
Theorem align_base (baseFire fire : BezierFire) :
  px (fireBase (align baseFire fire)) == px (fireBase baseFire)
  /\ py (fireBase (align baseFire fire)) == py (fireBase fire)
  /\ eqFire (align baseFire baseFire) baseFire
  /\ eqFire (align baseFire (align baseFire fire)) (align baseFire fire).
Proof.
  unfold align, move. cbn [fireBase px py].
  split; [ring|]. split; [ring|]. split.
  - unfold eqFire. cbn [frame start points fireBase].
    repeat split; try (unfold eqRect, eqPoint; cbn; repeat split; ring).
    apply Forall2_map_l. intros p. unfold eqLine. cbn. repeat split; ring.
  - unfold eqFire. cbn [frame start points fireBase px py].
    rewrite map_map.
    repeat split; try (unfold eqRect, eqPoint; cbn; repeat split; ring).
    apply Forall2_map_map. intros p. unfold eqLine. cbn. repeat split; ring.
Qed.

(** What [drawBezierFrame] fills on a non-empty list, read back from its
    calls. *)
Lemma fills_frameCalls (c : TieredFireColor) (baseFire : BezierFire)
    (fires : list BezierFire) :
  fills (frameCalls c baseFire fires)
    = map (centroidFill baseFire 1 "#ffffff") fires
      ++ map (centroidFill baseFire (93 # 100) "#000000") fires
      ++ map (centroidFill baseFire (84 # 100) (outer c)) fires
      ++ map (baseFill baseFire (55 # 100) (middle c)) fires
      ++ [(outline (scale baseFire (px (fireBase baseFire))
                      (py (fireBase baseFire)) (3 # 10)),
           inner c)].
Proof.
  unfold fills, frameCalls.
  edestruct (fillsFrom_layer _ _
               (fillsFrom_centroidLayer baseFire 1 "#ffffff") fires)
    as (p1 & s1 & E1).
  rewrite E1; clear E1. f_equal.
  edestruct (fillsFrom_layer _ _
               (fillsFrom_centroidLayer baseFire (93 # 100) "#000000") fires)
    as (p2 & s2 & E2).
  rewrite E2; clear E2. f_equal.
  edestruct (fillsFrom_layer _ _
               (fillsFrom_centroidLayer baseFire (84 # 100) (outer c)) fires)
    as (p3 & s3 & E3).
  rewrite E3; clear E3. f_equal.
  edestruct (fillsFrom_layer _ _
               (fillsFrom_baseLayer baseFire (55 # 100) (middle c)) fires)
    as (p4 & s4 & E4).
  rewrite E4; clear E4. f_equal.
  rewrite <- (app_nil_r (drawBezierFire [] _ _)).
  rewrite fillsFrom_drawBezierFire. reflexivity.
Qed.

(** X20: whatever the identifier, the counter and the canvas size, the
    render makes 9 or 13 fills; the first is white; and the last is the
    untransformed seed shape scaled by [0.3] about its base [(258, 406)], in
    the inner colour of the counter's tier: the bright core is the same
    shape in every image. *)
Theorem renderImage_core (atan : Quotient -> Q) (cos sin : Q -> Q) (PI : Q)
    (width height : Q) (address : string) (gasUsed : Z) :
  exists calls c front,
    renderImage atan cos sin PI [] width height address gasUsed = Some calls
    /\ getTieredFireColor (checkTierOf gasUsed) = Some c
    /\ fills calls
       = front ++ [(outline (scale seedFire 258 406 (3 # 10)), inner c)]
    /\ (List.length (fills calls) = 9%nat
        \/ List.length (fills calls) = 13%nat)
    /\ (exists path, hd_error (fills calls) = Some (path, "#ffffff"%string)).
Proof.
  destruct (chooseFires_total atan cos sin PI width address)
    as (fires & E & L & _).
  destruct (second_instance atan cos sin PI width address) as (rest & E2).
  rewrite E in E2. injection E2 as ->.
  destruct (getTieredFireColor_total gasUsed) as (c & Ec).
  set (second := transformBezier _ seedFire) in *.
  exists (frameCalls c seedFire (seedFire :: second :: rest)), c.
  eexists.
  unfold renderImage. rewrite E, Ec, drawBezierFrame_app.
  split; [reflexivity|]. split; [reflexivity|].
  rewrite fills_frameCalls.
  split.
  - rewrite !app_assoc. reflexivity.
  - split.
    + rewrite !List.length_app, !List.length_map. simpl in *. lia.
    + eexists. reflexivity.
Qed.

Section Instances.

Variable atan : Quotient -> Q.
Variables cos sin : Q -> Q.
Variable PI : Q.

(** An instance as [renderImage] makes them: the seed frame and three
    segments. *)
Definition seedLike (f : BezierFire) : Prop :=
  frame f = frame seedFire /\ List.length (points f) = 3%nat.

Lemma placeFire_seedLike (width : Q) (i : Z) (g : XorShift) :
  exists fire g',
    placeFire atan cos sin PI width i g = (Some fire, g') /\ seedLike fire.
Proof.
  destruct (Z.ltb_spec 0 i) as [Hi | Hi].
  - rewrite (placeFire_next atan cos sin PI width g Hi).
    do 2 eexists. split; [reflexivity|].
    unfold seedLike, transformBezier.
    repeat match goal with |- context [let '(_, _) := ?t in _] =>
      destruct t end.
    cbn [frame points]. rewrite List.length_map. split; reflexivity.
  - assert (E : i = 0%Z \/ (i < 0)%Z) by lia.
    destruct (placeFire_total atan cos sin PI width i g)
      as (fire & g' & P & _).
    assert (F : placeFire atan cos sin PI width i g = (Some seedFire, g)).
    { unfold placeFire, bind. rewrite (proj1 (seedIdx_zero g)).
      rewrite (proj2 (seedIdx_zero g)).
      destruct (Z.ltb_spec 0 i); [lia | reflexivity]. }
    rewrite F. do 2 eexists. split; [reflexivity|]. split; reflexivity.
Qed.

Lemma placeFires_seedLike (width : Q) (rounds : nat) :
  forall (i : Z) (acc : list BezierFire) (g : XorShift),
    Forall seedLike acc ->
    exists fires g',
      placeFires atan cos sin PI width rounds i acc g = (Some fires, g')
      /\ Forall seedLike fires.
Proof.
  induction rounds as [|rounds IH]; intros i acc g Hacc.
  - exists acc, g. split; [reflexivity | exact Hacc].
  - destruct (placeFire_seedLike width i g) as (fire & g1 & E & S).
    erewrite placeFires_step; [|exact E].
    apply IH. apply Forall_app. split; [exact Hacc|].
    constructor; [exact S | constructor].
Qed.

End Instances.

(** X23: every instance that [renderImage] draws carries the frame of the
    seed shape unchanged, also after its transform, and has three segments;
    so each placement is generated against the same frame. *)
Theorem chooseFires_frames (atan : Quotient -> Q)
    (cos sin : Q -> Q) (PI width : Q) (address : string) :
  exists fires,
    chooseFires atan cos sin PI width address = Some fires
    /\ Forall
         (fun f =>
            frame f = mkRect 120 70 392 512
            /\ List.length (points f) = 3%nat)
         fires.
Proof.
  unfold chooseFires, bind.
  destruct (nextIntBet 2 4 (getDeterministicRandomBy address)) as [n g1].
  destruct (placeFires_seedLike atan cos sin PI width
              (Z.to_nat (Qceiling n)) 0 [] g1 (Forall_nil _))
    as (fires & g2 & E & F).
  exists fires. rewrite E. split; [reflexivity | exact F].
Qed.

Lemma inner_injective (t1 t2 : Z) (c1 c2 : TieredFireColor) :
  getTieredFireColor t1 = Some c1 -> getTieredFireColor t2 = Some c2 ->
  inner c1 = inner c2 -> t1 = t2.
Proof.
  intros E1 E2 H.
  assert (D : forall t c, getTieredFireColor t = Some c -> (1 <= t <= 8)%Z).
  { intros t c E. unfold getTieredFireColor, index in E.
    destruct (Z.ltb_spec (t - 1) 0) as [L | L]; [discriminate E|].
    assert (N : nth_error tierFireColor (Z.to_nat (t - 1)) <> None)
      by congruence.
    apply nth_error_Some in N.
    change (List.length tierFireColor) with 8%nat in N. lia. }
  pose proof (D _ _ E1) as R1. pose proof (D _ _ E2) as R2.
  assert (C1 : (t1 = 1 \/ t1 = 2 \/ t1 = 3 \/ t1 = 4 \/ t1 = 5 \/ t1 = 6
                \/ t1 = 7 \/ t1 = 8)%Z) by lia.
  assert (C2 : (t2 = 1 \/ t2 = 2 \/ t2 = 3 \/ t2 = 4 \/ t2 = 5 \/ t2 = 6
                \/ t2 = 7 \/ t2 = 8)%Z) by lia.
  repeat (destruct C1 as [C1 | C1]); subst t1;
    repeat (destruct C2 as [C2 | C2]); subst t2;
    try reflexivity;
    vm_compute in E1, E2; injection E1 as <-; injection E2 as <-;
    vm_compute in H; discriminate H.
Qed.

(** X24: for one identifier and one canvas, two counters give the same draw
    calls exactly when they are in the same tier. *)
Theorem renderImage_tier (atan : Quotient -> Q) (cos sin : Q -> Q) (PI : Q)
    (width height : Q) (address : string) (gasUsed1 gasUsed2 : Z) :
  renderImage atan cos sin PI [] width height address gasUsed1
    = renderImage atan cos sin PI [] width height address gasUsed2
  <-> checkTierOf gasUsed1 = checkTierOf gasUsed2.
Proof.
  split.
  - unfold renderImage.
    destruct (chooseFires_total atan cos sin PI width address)
      as (fires & E & L & _).
    destruct (getTieredFireColor_total gasUsed1) as (c1 & E1).
    destruct (getTieredFireColor_total gasUsed2) as (c2 & E2).
    rewrite E, E1, E2.
    destruct fires as [|baseFire rest];
      [simpl in L; destruct L; discriminate|].
    rewrite !drawBezierFrame_app. cbn [app].
    remember (frameCalls c1 baseFire (baseFire :: rest)) as F1 eqn:D1.
    remember (frameCalls c2 baseFire (baseFire :: rest)) as F2 eqn:D2.
    intros H. injection H as H. subst F1 F2.
    apply (f_equal fills) in H. rewrite !fills_frameCalls in H.
    rewrite !app_assoc in H. apply app_inj_tail in H. destruct H as [_ H].
    injection H as H.
    exact (inner_injective _ _ c1 c2 E1 E2 H).
  - intros H. unfold renderImage. rewrite H. reflexivity.
Qed.

Lemma renderImage_tier_witness :
  checkTierOf 10 = checkTierOf 20
  /\ renderImage (fun _ => 0) (fun q => q) (fun q => q) (22 # 7) [] 512 512
       "0x000000000000000000000000000000000000aa" 10
     = renderImage (fun _ => 0) (fun q => q) (fun q => q) (22 # 7) [] 512 512
         "0x000000000000000000000000000000000000aa" 20.
Proof.
  assert (H : checkTierOf 10 = checkTierOf 20) by reflexivity.
  split; [exact H|].
  exact (proj2 (renderImage_tier (fun _ => 0) (fun q => q) (fun q => q)
                  (22 # 7) 512 512
                  "0x000000000000000000000000000000000000aa" 10 20) H).
Defined.

(** X25: the image depends on the identifier only through its last 32
    characters. *)
Theorem renderImage_last32 (atan : Quotient -> Q)
    (cos sin : Q -> Q) (PI : Q) (ctx : Context)
    (width height : Q) (p s : string) (gasUsed : Z) :
  String.length s = 32%nat ->
  renderImage atan cos sin PI ctx width height (p ++ s) gasUsed
    = renderImage atan cos sin PI ctx width height s gasUsed.
Proof.
  intros Hs. unfold renderImage, chooseFires.
  rewrite !SeedFacts.getDeterministicRandomBy_words.
  rewrite !(SeedHex.chunk_prefix p s) by (try lia; exact Hs). reflexivity.
Qed.

Lemma renderImage_last32_witness :
  String.length "00112233445566778899aabbccddeeff" = 32%nat
  /\ renderImage (fun _ => 0) (fun q => q) (fun q => q) (22 # 7) [] 512 512
       ("0xdeadbeef" ++ "00112233445566778899aabbccddeeff") 0
     = renderImage (fun _ => 0) (fun q => q) (fun q => q) (22 # 7) [] 512 512
         "00112233445566778899aabbccddeeff" 0.
Proof.
  assert (L : String.length "00112233445566778899aabbccddeeff" = 32%nat)
    by reflexivity.
  split; [exact L|].
  exact (renderImage_last32 (fun _ => 0) (fun q => q) (fun q => q) (22 # 7)
           [] 512 512 "0xdeadbeef" "00112233445566778899aabbccddeeff" 0 L).
Defined.

End RenderMore.

(* ------------------------------------------------------------------ *)
(** ** utils/signature.ts: the packing of [s] and [v] *)

Module Signature.

Local Open Scope Z_scope.

(** The part of [create_signature] after signing: [s] is the integer
    [BigInt(s)] and [v] the recovery value; the result is the integer whose
    hexadecimal digits follow those of [r]. *)
Definition packS (s v : Z) : Z :=
  let sBigInt := s in
  if negb (v =? 27) then Z.lor sBigInt (Z.shiftl 1 255) else sBigInt.

End Signature.

Module SignatureFacts.

Import Signature.

Local Open Scope Z_scope.

Lemma high_bit_clear (s : Z) :
  0 <= s < 2 ^ 255 -> Z.land s (2 ^ 255) = 0.
Proof.
  intros H. apply Z.bits_inj'. intros i Hi.
  rewrite Z.land_spec, Z.bits_0.
  destruct (Z.eq_dec i 255) as [-> | Hne].
  - assert (B : Z.testbit s 255 = false).
    { destruct (Z.eq_dec s 0) as [-> | Hs]; [apply Z.bits_0|].
      apply Z.bits_above_log2; [lia|].
      apply Z.log2_lt_pow2; lia. }
    rewrite B. reflexivity.
  - rewrite (Z.pow2_bits_false 255 i) by lia. apply andb_false_r.
Qed.

Lemma lor_high_bit (s : Z) :
  0 <= s < 2 ^ 255 -> Z.lor s (Z.shiftl 1 255) = s + 2 ^ 255.
Proof.
  intros H. rewrite Z.shiftl_1_l.
  pose proof (high_bit_clear s H) as L.
  rewrite <- (Z.lxor_lor s (2 ^ 255) L).
  symmetry. apply Z.add_nocarry_lxor. exact L.
Qed.

(** X21: for [0 <= s < 2^255] the packed value keeps [s] in its low 255
    bits and carries in bit 255 whether [v] differs from 27, so both can be
    read back; it is below [2^256]. *)
Theorem packS_roundtrip (s v : Z) :
  0 <= s < 2 ^ 255 ->
  packS s v mod 2 ^ 255 = s
  /\ Z.testbit (packS s v) 255 = negb (v =? 27)
  /\ 0 <= packS s v < 2 ^ 256.
Proof.
  intros H. unfold packS. cbv zeta.
  destruct (v =? 27); cbn [negb].
  - split; [apply Z.mod_small; exact H|]. split; [|lia].
    destruct (Z.eq_dec s 0) as [-> | Hs]; [apply Z.bits_0|].
    apply Z.bits_above_log2; [lia|]. apply Z.log2_lt_pow2; lia.
  - rewrite (lor_high_bit s H). split; [|split].
    + rewrite <- (Z.mul_1_l (2 ^ 255)) at 1.
      rewrite Z.mod_add by lia. apply Z.mod_small. exact H.
    + rewrite Z.testbit_true by lia.
      replace ((s + 2 ^ 255) / 2 ^ 255) with 1; [reflexivity|].
      apply Z.div_unique with (r := s); lia.
    + change (2 ^ 256) with (2 * 2 ^ 255). lia.
Qed.

Lemma packS_roundtrip_witness :
  0 <= 5 < 2 ^ 255
  /\ packS 5 28 mod 2 ^ 255 = 5 /\ Z.testbit (packS 5 28) 255 = true.
Proof.
  assert (H : 0 <= 5 < 2 ^ 255) by (split; [lia | reflexivity]).
  split; [exact H|].
  destruct (packS_roundtrip 5 28 H) as (A & B & _).
  split; [exact A | exact B].
Defined.

End SignatureFacts.

(* ------------------------------------------------------------------ *)
(** ** app/api/v1/gasfire/render-image/route.ts *)

Module Route.

Import Render.

(** What the handler answers: the 400 response, the PNG of a canvas on
    which the given calls were made, or an exception. *)
Inductive Response : Type :=
| BadRequest
| Png (calls : Context)
| Threw.

(** [!address] for what [searchParams.get] returns. *)
Definition missing (address : option string) : bool :=
  match address with
  | None => true
  | Some EmptyString => true
  | Some _ => false
  end.

Definition imageSize : Q := 512.

Section Trig.

Variable atan : Generator.Quotient -> Q.
Variables cos sin : Q -> Q.
Variable PI : Q.

(** [GET] on the two query parameters.  [data] is what [BigInt] makes of the
    parameter, [None] when it throws (no parameter, or not an integer): the
    conversion comes before the test. *)
Definition GET (address : option string) (data : option Z) : Response :=
  match data with
  | None => Threw
  | Some data =>
      if missing address || (data =? 0)%Z then BadRequest
      else
        match address with
        | None => BadRequest
        | Some address =>
            match renderImage atan cos sin PI [] imageSize imageSize address
                    data with
            | Some calls => Png calls
            | None => Threw
            end
        end
  end.

End Trig.

End Route.

Module RouteFacts.

Import Render RenderFacts Route.

(** X22: the handler answers 400 for a counter of [0] as it does for an
    empty or absent address, whatever the other parameter is; for a
    non-empty address and any other counter it answers the image that
    [renderImage] draws on a fresh 512 by 512 canvas, and never fails. *)
Theorem GET_answers (atan : Generator.Quotient -> Q) (cos sin : Q -> Q)
    (PI : Q)
    (address : option string) (data : Z) :
  (data = 0%Z \/ missing address = true ->
   GET atan cos sin PI address (Some data) = BadRequest)
  /\ (forall a,
        address = Some a -> a <> EmptyString -> data <> 0%Z ->
        exists calls,
          GET atan cos sin PI address (Some data) = Png calls
          /\ renderImage atan cos sin PI [] 512 512 a data = Some calls).
Proof.
  split.
  - intros [H | H]; unfold GET.
    + subst data. rewrite orb_true_r. reflexivity.
    + rewrite H. reflexivity.
  - intros a -> Ha Hd. unfold GET.
    assert (M : missing (Some a) = false)       by (destruct a; [exfalso; apply Ha; reflexivity | reflexivity]).
    apply Z.eqb_neq in Hd. rewrite M, Hd. cbn [orb].
    destruct (renderImage_calls atan cos sin PI imageSize imageSize a data)
      as (calls & H).
    exists ([] ++ calls). unfold imageSize in *. rewrite (H []).
    split; reflexivity.
Qed.

Definition sampleAddress : string :=
  "0x000000000000000000000000000000000000aa".

Lemma GET_answers_witness :
  (0 = 0)%Z /\ sampleAddress <> EmptyString /\ (5 <> 0)%Z
  /\ GET (fun _ => 0) (fun q => q) (fun q => q) (22 # 7)
       (Some sampleAddress) (Some 0%Z)
     = BadRequest
  /\ exists calls,
       GET (fun _ => 0) (fun q => q) (fun q => q) (22 # 7)
         (Some sampleAddress) (Some 5%Z) = Png calls
       /\ renderImage (fun _ => 0) (fun q => q) (fun q => q) (22 # 7) []
            512 512 sampleAddress 5 = Some calls.
Proof.
  assert (H : (0 = 0)%Z) by reflexivity.
  assert (A : sampleAddress <> EmptyString) by discriminate.
  assert (D : (5 <> 0)%Z) by lia.
  split; [exact H|]. split; [exact A|]. split; [exact D|]. split.
  - exact (proj1 (GET_answers (fun _ => 0) (fun q => q) (fun q => q) (22 # 7)
                    (Some sampleAddress) 0) (or_introl H)).
  - exact (proj2 (GET_answers (fun _ => 0) (fun q => q) (fun q => q) (22 # 7)
                    (Some sampleAddress) 5) sampleAddress eq_refl A D).
Defined.

End RouteFacts.
